(** * LU decomposition with relative (row-scaled) partial pivoting

    A shallow embedding of [lu.cpp]: the class [LUMatrix] (an n-by-n grid of
    [double] stored as an array of row buffers, the row order, the swap
    counter and the tolerance), its pivot selection [index_best], the row
    interchange [rswap], the in-place elimination of [decompose], and the
    bounds-checked accessors.

    The arithmetic of the program is the arithmetic of [double].  The
    embedding is written once over an interface [Scalar] that lists exactly
    the operations the program applies to its numbers, and is then read at
    two instances: IEEE-754 binary64 (the kernel's primitive floats, which
    is what the program runs on) and the rationals (exact arithmetic). *)

From Stdlib Require Import ZArith QArith Qabs Lqa Lia List Floats String Ascii.
From stdpp Require Import base list.

Local Open Scope Z_scope.

(** ** Numbers *)

(** The operations [lu.cpp] uses on [double]: integer-valued literals
    ([0.0], [1.0], [1024]), [std::abs], [-], [*], [/] and [<].  The program
    writes [a > b] in places; that is [b < a]. *)
Class Scalar (R : Type) : Type := {
  lit : Z -> R;
  fabs : R -> R;
  fsub : R -> R -> R;
  fmul : R -> R -> R;
  fdiv : R -> R -> R;
  flt : R -> R -> bool
}.

Definition fgt {R} `{Scalar R} (a b : R) : bool := flt b a.

(** The facts about numbers that the arithmetic-independent proofs below
    rest on.  They hold in binary64 and in the rationals alike: [<] is
    asymmetric, an absolute value is never below zero, and the handful of
    operations on the constants 0, 1 and 1/1024 that decomposing an
    identity matrix performs give the expected constants. *)
Class ScalarLaws (R : Type) `{Scalar R} : Prop := {
  flt_asym : forall a b, flt a b = true -> flt b a = false;
  fabs_not_neg : forall a, flt (fabs a) (lit 0) = false;
  fabs_0 : fabs (lit 0) = lit 0;
  fabs_1 : fabs (lit 1) = lit 1;
  flt_0_1 : flt (lit 0) (lit 1) = true;
  fdiv_0_1 : fdiv (lit 0) (lit 1) = lit 0;
  fdiv_1_1 : fdiv (lit 1) (lit 1) = lit 1;
  fmul_0_0 : fmul (lit 0) (lit 0) = lit 0;
  fsub_0_0 : fsub (lit 0) (lit 0) = lit 0;
  fsub_1_0 : fsub (lit 1) (lit 0) = lit 1;
  default_tolerance_lt_1 : flt (fdiv (lit 1) (lit 1024)) (lit 1) = true
}.

(** ** Exceptions *)

(** [class LUMatrixException]: an error number and two indices. *)
Record LUMatrixException : Type := mkException {
  _errno : Z;
  _i : Z;
  _j : Z
}.

Definition what (e : LUMatrixException) : string :=
  match _errno e with
  | 1 => "bad matrix dimensions"
  | 2 => "index out of bounds"
  | 3 => "row index out of bounds"
  | 4 => "linearly dependent row detected"
  | 5 => "bad input"
  | _ => "unknown error"
  end%string.

(** The names the specification gives to the error numbers. *)
Definition InvalidDimension (n : Z) : LUMatrixException := mkException 1 n 0.
Definition IndexOutOfBounds (i j : Z) : LUMatrixException := mkException 2 i j.
Definition RowIndexOutOfBounds (row : Z) : LUMatrixException := mkException 3 row 0.
Definition LinearlyDependentRow : LUMatrixException := mkException 4 0 0.
Definition BadInput : LUMatrixException := mkException 5 0 0.

(** A call that either returns a value or throws. *)
Inductive result (A : Type) : Type :=
| Ok (a : A)
| Throw (e : LUMatrixException).
Arguments Ok {A} a.
Arguments Throw {A} e.

(** ** The matrix store and the decomposition *)

Section LU.
Context {R : Type} `{Scalar R}.

(** The data members of [class LUMatrix].  [_matrix] is the array of row
    buffers ([double**]); [_order] the row order ([int*]); a null pointer is
    the empty list.  [_swaps] is an [int] that is only ever incremented;
    it is kept as an unbounded integer (signed overflow is undefined in
    C++, there is no wrap-around to model). *)
Record LUMatrix : Type := mkLUMatrix {
  _dim : nat;
  _swaps : Z;
  _order : list nat;
  _tolerance : R;
  _matrix : list (list R)
}.

(** Reading [m[i]] and [m[i][j]].  The program never reads outside its
    buffers on a well-formed store (see [wf]); outside, where C++ leaves
    the behaviour undefined, the model reads an empty row and [0.0]. *)
Definition row_at (m : list (list R)) (i : nat) : list R := default [] (m !! i).
Definition cell (m : list (list R)) (i j : nat) : R := default (lit 0) (row_at m i !! j).

(** Writing [m[i][j] = v]. *)
Definition set_cell (m : list (list R)) (i j : nat) (v : R) : list (list R) :=
  <[i := <[j := v]> (row_at m i)]> m.

(** A store as the constructor leaves it for [n >= 1]: a grid of [n] rows
    of [n] cells and [n] entries of row order. *)
Definition grid (n : nat) (m : list (list R)) : Prop :=
  length m = n /\ Forall (fun row => length row = n) m.

Definition wf (st : LUMatrix) : Prop :=
  grid (_dim st) (_matrix st) /\ length (_order st) = _dim st.

(** [LUMatrix::LUMatrix(const int& n)].  For [n < 1] the constructor
    catches its own exception and leaves the empty store; the result's
    second component is what was reported on [std::cerr].  The cells, the
    row order and the tolerance are left uninitialised by the C++ code:
    [fill] stands for their indeterminate contents, which every path
    overwrites before it reads them.  This is the constructor on a run on
    which every [new] of lines 47-52 succeeds; [LUMatrix_construct] below
    adds the runs on which one of them fails. *)
Definition LUMatrix_new (fill : R) (n : Z) : LUMatrix * option LUMatrixException :=
  if n <? 1 then (mkLUMatrix 0 0 [] fill [], Some (InvalidDimension n))
  else
    let d := Z.to_nat n in
    (mkLUMatrix d 0 (replicate d 0%nat) fill (replicate d (replicate d fill)), None).

(** The store after the caller has written all of its cells (through
    [operator>>] or [operator[]]): cell [(i, j)] holds [a i j]. *)
Definition tabulate {A} (n : nat) (f : nat -> A) : list A := map f (seq 0 n).

Definition populate (a : nat -> nat -> R) (st : LUMatrix) : LUMatrix :=
  mkLUMatrix (_dim st) (_swaps st) (_order st) (_tolerance st)
    (tabulate (_dim st) (fun i => tabulate (_dim st) (a i))).

(** [void rswap(const int& i, const int& j)]: exchanges the two row
    pointers. *)
Definition rswap (m : list (list R)) (i j : nat) : list (list R) :=
  let temp := row_at m i in
  <[j := temp]> (<[i := row_at m j]> m).

(** The inner loop of [index_best] (lines 205-212): the largest [|m[i][j]|]
    over the columns [j] in [[p, n)], starting from [|m[i][p]|]. *)
Definition scan_row_max (m : list (list R)) (n i p : nat) : R :=
  fold_left
    (fun row_max j => if fgt (fabs (cell m i j)) row_max then fabs (cell m i j) else row_max)
    (seq p (n - p))
    (fabs (cell m i p)).

(** The outer loop of [index_best] over the rows still to scan, with the
    current [index] and [best]. *)
Fixpoint index_best_loop (st : LUMatrix) (index_pivot : nat) (rows : list nat)
    (index : nat) (best : R) : result nat :=
  match rows with
  | [] => Ok index
  | i :: rows' =>
      let row_max := scan_row_max (_matrix st) (_dim st) i index_pivot in
      if flt row_max (_tolerance st) then Throw (mkException 4 0 0)
      else if fgt (fdiv (fabs (cell (_matrix st) i index_pivot)) row_max) best
      then index_best_loop st index_pivot rows' i
             (fabs (fdiv (cell (_matrix st) i index_pivot) row_max))
      else index_best_loop st index_pivot rows' index best
  end.

(** [int index_best(const int& index_pivot)]. *)
Definition index_best (st : LUMatrix) (index_pivot : nat) : result nat :=
  index_best_loop st index_pivot (seq index_pivot (_dim st - index_pivot))
    index_pivot (lit 0).

(** The body of the elimination loop (lines 104-109) for one [row_elim]. *)
Definition eliminate_row (n pivot : nat) (m : list (list R)) (row_elim : nat)
    : list (list R) :=
  let c := fdiv (cell m row_elim pivot) (cell m pivot pivot) in
  let m' :=
    fold_left
      (fun m col =>
         set_cell m row_elim col
           (fsub (cell m row_elim col) (fmul c (cell m pivot col))))
      (seq (pivot + 1) (n - (pivot + 1))) m in
  set_cell m' row_elim pivot c.

(** The elimination loop (lines 102-110). *)
Definition eliminate (n pivot : nat) (m : list (list R)) : list (list R) :=
  fold_left (eliminate_row n pivot) (seq (pivot + 1) (n - (pivot + 1))) m.

(** Lines 93-100: the interchange of rows [pivot] and [swap], of the two
    entries of the row order, and the increment of the counter. *)
Definition interchange (st : LUMatrix) (pivot swap : nat) : LUMatrix :=
  let m := rswap (_matrix st) pivot swap in
  let temp := default 0%nat (_order st !! pivot) in
  let o := <[pivot := default 0%nat (_order st !! swap)]> (_order st) in
  let o := <[swap := temp]> o in
  mkLUMatrix (_dim st) (_swaps st + 1) o (_tolerance st) m.

(** One iteration of the pivot loop (lines 91-110). *)
Definition pivot_step (st : LUMatrix) (pivot : nat) : result LUMatrix :=
  match index_best st pivot with
  | Throw e => Throw e
  | Ok swap =>
      let st1 := if decide (swap <> pivot) then interchange st pivot swap else st in
      Ok (mkLUMatrix (_dim st1) (_swaps st1) (_order st1) (_tolerance st1)
            (eliminate (_dim st1) pivot (_matrix st1)))
  end.

(** The pivot loop inside the [try] block: an exception leaves the loop
    with the store as the completed iterations made it, and is reported. *)
Fixpoint pivot_loop (pivots : list nat) (st : LUMatrix)
    : LUMatrix * option LUMatrixException :=
  match pivots with
  | [] => (st, None)
  | pivot :: pivots' =>
      match pivot_step st pivot with
      | Throw e => (st, Some e)
      | Ok st' => pivot_loop pivots' st'
      end
  end.

(** Line 84: the tolerance [decompose] stores. *)
Definition effective_tolerance (tolerance : R) : R :=
  if flt tolerance (lit 0) then fdiv (lit 1) (lit 1024) else tolerance.

(** Lines 84-88: the tolerance is stored and the row order is set to
    [0, 1, ..., _dim - 1]. *)
Definition decompose_init (tolerance : R) (st : LUMatrix) : LUMatrix :=
  mkLUMatrix (_dim st) (_swaps st)
    (fold_left (fun o i => <[i := i]> o) (seq 0 (_dim st)) (_order st))
    (effective_tolerance tolerance) (_matrix st).

(** [void decompose(const double& tolerance)]: the store it leaves and the
    exception it caught and reported on [std::cerr], if any. *)
Definition decompose (tolerance : R) (st : LUMatrix)
    : LUMatrix * option LUMatrixException :=
  let st0 := decompose_init tolerance st in
  pivot_loop (seq 0 (_dim st0)) st0.

(** *** Reading a run of the pivot loop *)

(** The first iterations of the pivot loop, taken alone: the store after
    the pivots of [pivots] have all been completed, or the exception that
    ended the run. *)
Fixpoint steps (pivots : list nat) (st : LUMatrix) : result LUMatrix :=
  match pivots with
  | [] => Ok st
  | pivot :: pivots' =>
      match pivot_step st pivot with
      | Throw e => Throw e
      | Ok st' => steps pivots' st'
      end
  end.

(** The pairs [(pivot, swap)] of the completed iterations, [swap] being
    what [index_best] returned at line 92. *)
Fixpoint selections (pivots : list nat) (st : LUMatrix) : list (nat * nat) :=
  match pivots with
  | [] => []
  | pivot :: pivots' =>
      match index_best st pivot, pivot_step st pivot with
      | Ok swap, Ok st' => (pivot, swap) :: selections pivots' st'
      | _, _ => []
      end
  end.

(** The number of iterations that entered the block of lines 94-100, that
    is, that called [rswap] on two different rows. *)
Definition interchanges (sel : list (nat * nat)) : nat :=
  length (filter (fun ps => ps.1 <> ps.2) sel).

(** The divisors [_matrix[pivot][pivot]] read at line 104 while the rows
    below [pivot] are eliminated, in the order they are read. *)
Definition eliminate_divisors (n pivot : nat) (m : list (list R)) : list R :=
  snd (fold_left
         (fun md row_elim =>
            (eliminate_row n pivot md.1 row_elim, md.2 ++ [cell md.1 pivot pivot]))
         (seq (pivot + 1) (n - (pivot + 1))) (m, [])).

(** The divisors of line 104 over the completed iterations of a run. *)
Fixpoint divisors (pivots : list nat) (st : LUMatrix) : list R :=
  match pivots with
  | [] => []
  | pivot :: pivots' =>
      match index_best st pivot, pivot_step st pivot with
      | Ok swap, Ok st' =>
          let st1 := if decide (swap <> pivot) then interchange st pivot swap else st in
          eliminate_divisors (_dim st1) pivot (_matrix st1) ++ divisors pivots' st'
      | _, _ => []
      end
  end.

(** [void display(std::ostream& os)] prints two matrices from the one
    grid.  [L_entry] and [U_entry] are the numbers it prints at row [i],
    column [j]: below the diagonal [L] shows the stored multiplier, on it
    the character [1], above it [0]; [U] shows the stored cell on and above
    the diagonal and [0] below. *)
Definition L_entry (st : LUMatrix) (i j : nat) : R :=
  if decide (j < i)%nat then cell (_matrix st) i j
  else if decide (j = i) then lit 1 else lit 0.

Definition U_entry (st : LUMatrix) (i j : nat) : R :=
  if decide (j < i)%nat then lit 0 else cell (_matrix st) i j.

(** What a call of the accessor [at] amounts to.  [Slot i j] would be a
    reference to [_matrix[i][j]]; [NoValue log] is control reaching the
    closing brace of a function declared to return [double&] without a
    [return] statement, [log] being the exception caught and reported on
    the way, if any. *)
Inductive at_outcome : Type :=
| Slot (i j : Z)
| NoValue (log : option LUMatrixException).

(** [double& at(const int& i, const int& j)] (lines 159-172): the bounds
    test, the [throw] caught by the function's own handler, and then the
    end of the function body; no path has a [return]. *)
Definition at_ (st : LUMatrix) (i j : Z) : at_outcome :=
  if (i <? 1) || (j <? 1) || (i >=? Z.of_nat (_dim st)) || (j >=? Z.of_nat (_dim st))
  then NoValue (Some (mkException 2 i j))
  else NoValue None.

(** [double* operator[](const int& row)] (lines 174-186): the row buffer,
    or a null pointer and the reported exception. *)
Definition row_access (st : LUMatrix) (row : Z) : option (list R) * option LUMatrixException :=
  if (row <? 0) || (row >=? Z.of_nat (_dim st))
  then (None, Some (mkException 3 row 0))
  else (Some (row_at (_matrix st) (Z.to_nat row)), None).

End LU.

Arguments LUMatrix R : clear implicits.

(** ** The two arithmetics *)

(** Exact arithmetic: the rationals.  Division by zero, which IEEE
    arithmetic answers with NaN or an infinity, yields [0] here. *)
Definition Qltb (a b : Q) : bool := negb (Qle_bool b a).

#[global] Instance Q_scalar : Scalar Q := {|
  lit := inject_Z;
  fabs := Qabs;
  fsub := Qminus;
  fmul := Qmult;
  fdiv := Qdiv;
  flt := Qltb
|}.

(** IEEE-754 binary64 with round-to-nearest-even, the arithmetic of
    [double]. *)
Definition float_of_Z (z : Z) : float :=
  match z with
  | Z0 => PrimFloat.zero
  | Zpos _ => PrimFloat.of_uint63 (Uint63.of_Z z)
  | Zneg p => PrimFloat.opp (PrimFloat.of_uint63 (Uint63.of_Z (Zpos p)))
  end.

#[global] Instance binary64_scalar : Scalar float := {|
  lit := float_of_Z;
  fabs := PrimFloat.abs;
  fsub := PrimFloat.sub;
  fmul := PrimFloat.mul;
  fdiv := PrimFloat.div;
  flt := PrimFloat.ltb
|}.

(** ** Stores and quantities the statements speak of *)

Section Stores.
Context {R : Type} `{Scalar R}.

(** A store of dimension [length rows] holding [rows], as the constructor
    and the caller's writes leave it. *)
Definition store_of_rows (rows : list (list R)) : LUMatrix R :=
  populate (fun i j => cell rows i j)
    (fst (LUMatrix_new (lit 0) (Z.of_nat (length rows)))).

Definition store_of (rows : list (list Z)) : LUMatrix R :=
  store_of_rows (map (map lit) rows).

(** The n-by-n identity matrix in a freshly constructed store. *)
Definition identity_entry (i j : nat) : R := if decide (i = j) then lit 1 else lit 0.

Definition identity_grid (d : nat) : list (list R) :=
  tabulate d (fun i => tabulate d (identity_entry i)).

Definition identity_store (n : Z) : LUMatrix R :=
  populate identity_entry (fst (LUMatrix_new (lit 0) n)).

(** The store with every cell of row [i] multiplied by [k]. *)
Definition scale_row (k : R) (i : nat) (st : LUMatrix R) : LUMatrix R :=
  mkLUMatrix (_dim st) (_swaps st) (_order st) (_tolerance st)
    (<[i := map (fmul k) (row_at (_matrix st) i)]> (_matrix st)).

(** The relative ratio of row [i] at pivot [p]: [|m[i][p]| / row_max]. *)
Definition ratio (st : LUMatrix R) (p i : nat) : R :=
  fdiv (fabs (cell (_matrix st) i p)) (scan_row_max (_matrix st) (_dim st) i p).

(** The run of [decompose] up to, and without, pivot [k]. *)
Definition decompose_steps (tolerance : R) (st : LUMatrix R) (k : nat) : result (LUMatrix R) :=
  steps (seq 0 k) (decompose_init tolerance st).

End Stores.

(** The state of the outer loop about to scan row [a]: [index] and [best]
    summarise the rows of [[p, a)]. *)
Definition scanned (st : LUMatrix Q) (p a index : nat) (best : Q) : Prop :=
  (p <= index)%nat /\ ((index < a)%nat \/ index = p) /\
  (0 <= best)%Q /\ (best <= ratio st p index)%Q /\
  (forall i, (p <= i < a)%nat -> (ratio st p i <= best)%Q) /\
  (forall i, (p <= i < index)%nat -> (ratio st p i < ratio st p index)%Q) /\
  (index <> p -> (0 < ratio st p index)%Q).

(** A number that compares with nothing: below no number and above
    none.  In binary64 these are the NaNs; no rational is one. *)
Definition unordered {R} `{Scalar R} (b : R) : Prop :=
  forall x, flt b x = false /\ flt x b = false.

(** The facts about the order and the quotient that pivot selection rests
    on.  They hold in binary64 and in the rationals alike: when [a < c],
    any number that compares at all is above [a] or below [c]; and the
    absolute value of a quotient by an absolute value is the quotient of
    the absolute values (line 219 stores the former where line 217
    compared the latter). *)
Class ScalarOrder (R : Type) `{Scalar R} : Prop := {
  flt_cotrans : forall a b c,
    flt a c = true -> flt a b = true \/ flt b c = true \/ unordered b;
  fabs_fdiv : forall a b, fabs (fdiv a (fabs b)) = fdiv (fabs a) (fabs b)
}.


(** *** Concrete inputs *)

(** The tolerance [main] passes to [decompose]: the [double] nearest to
    the literal [1e-6]. *)
Definition main_tolerance : float := 0x1.0c6f7a0b5ed8dp-20%float.

(** The matrix of the specification's scenario. *)
Definition scenario_rows : list (list Z) := [[2; 1; 1]; [4; 3; 3]; [8; 7; 9]].

(** A matrix whose first pivot interchanges rows 0 and 2. *)
Definition interchange_rows : list (list Z) := [[1; 2; 3]; [4; 5; 6]; [7; 8; 10]].

(** A 2-by-2 matrix of integers that [double] holds exactly, whose two
    ratios at pivot 0 differ but round to the same [double]. *)
Definition rounding_rows : list (list Z) := [[6004799503160661; 18014398509481984]; [3; 9]].

(** Two matrices with an all-zero row. *)
Definition zero_first_rows : list (list Z) := [[0; 0]; [0; 1]].
Definition zero_last_rows : list (list Z) := [[1; 0]; [0; 0]].

(** A matrix of finite [double]s, all of them powers of two or zero, on
    which the first elimination overflows. *)
Definition overflow_rows : list (list float) :=
  [[1; 1; 0]; [-0x1p1023; 0x1p1023; 0]; [1; 1; 0x1p-30]]%float.

(** No cell is a NaN or an infinity. *)
Definition all_finite (m : list (list float)) : bool :=
  forallb (forallb is_finite) m.

(** *** Quantities of the further properties *)

Section Factors.
Context {R : Type} `{Scalar R}.

(** What the elimination at pivot [p] (lines 102-110) leaves in cell
    [(i, j)] of a row [i] below the pivot row, read off the grid [m] the
    elimination started from: the cells left of the pivot column are not
    touched, the pivot column receives the multiplier [c], the cells right
    of it [m[i][j] - c * m[p][j]]. *)
Definition eliminated_cell (m : list (list R)) (p i j : nat) : R :=
  if decide (j < p)%nat then cell m i j
  else if decide (j = p) then fdiv (cell m i p) (cell m p p)
  else fsub (cell m i j) (fmul (fdiv (cell m i p) (cell m p p)) (cell m p j)).

End Factors.

(** The sum of [f 0 .. f (c - 1)] and, with it, the entry [(i, j)] of the
    product of the two matrices [display] shows, in exact arithmetic. *)
Fixpoint Qsum (c : nat) (f : nat -> Q) : Q :=
  match c with
  | O => 0%Q
  | S c' => (Qsum c' f + f c')%Q
  end.

Definition LU_product (st : LUMatrix Q) (i j : nat) : Q :=
  Qsum (_dim st) (fun t => L_entry st i t * U_entry st t j)%Q.

(** The original row that position [i] holds according to the row order. *)
Definition original_row (st : LUMatrix Q) (i : nat) : nat :=
  default 0%nat (_order st !! i).

(** The grid of [s] after [k] completed pivots accounts for the original
    grid [A]: row [i] of [A], permuted by the row order, is rebuilt from
    the multipliers stored in row [i] left of column [min i k], the rows
    above, and what row [i] still holds from that column on. *)
Definition factored (A : list (list Q)) (k : nat) (s : LUMatrix Q) : Prop :=
  forall i j, (i < _dim s)%nat -> (j < _dim s)%nat ->
    (cell A (original_row s i) j ==
     Qsum (i `min` k) (fun t => cell (_matrix s) i t * U_entry s t j) +
     (if decide (i `min` k <= j)%nat then cell (_matrix s) i j else 0))%Q.

(** *** Input and output *)

Section IO.
Context {R : Type} `{Scalar R}.

(** [operator>>] as [main] calls it, on [std::cin].  The input is the
    sequence of outcomes of the formatted extractions [is >> x] of a
    [double]: [Some x] when a number is read, [None] when the characters
    met are not a number; the end of the list is the end of the input.
    The inner loop (lines 252-261) fills row [i]; a failed extraction
    throws the exception 5.  The prompts written to [std::cout] are left
    out. *)
Fixpoint read_row (i : nat) (cols : list nat) (input : list (option R))
    (m : list (list R)) : result (list (list R) * list (option R)) :=
  match cols with
  | [] => Ok (m, input)
  | j :: cols' =>
      match input with
      | Some x :: input' => read_row i cols' input' (set_cell m i j x)
      | _ => Throw (mkException 5 0 0)
      end
  end.

(** The outer loop (lines 250-262). *)
Fixpoint read_rows (rows : list nat) (n : nat) (input : list (option R))
    (m : list (list R)) : result (list (list R) * list (option R)) :=
  match rows with
  | [] => Ok (m, input)
  | i :: rows' =>
      match read_row i (seq 0 n) input m with
      | Throw e => Throw e
      | Ok (m', input') => read_rows rows' n input' m'
      end
  end.

(** [std::istream& operator>>(std::istream& is, LUMatrix& obj)]: the
    store with its cells read, and the input that is left; or the
    exception, which leaves the function. *)
Definition read_matrix (input : list (option R)) (st : LUMatrix R)
    : result (LUMatrix R * list (option R)) :=
  match read_rows (seq 0 (_dim st)) (_dim st) input (_matrix st) with
  | Throw e => Throw e
  | Ok (m, rest) =>
      Ok (mkLUMatrix (_dim st) (_swaps st) (_order st) (_tolerance st) m, rest)
  end.

(** The store [st] holding the grid [rows]. *)
Definition with_rows (rows : list (list R)) (st : LUMatrix R) : LUMatrix R :=
  mkLUMatrix (_dim st) (_swaps st) (_order st) (_tolerance st) rows.

(** What [display] sends to the stream, item by item: a string literal, a
    character, a [double] or an [int].  Field widths, the blanks after
    the integers of the swap vector and the formatting of numbers are
    left out. *)
Inductive printed : Type :=
| Text (s : string)
| Symbol (c : Ascii.ascii)
| Real (x : R)
| Integer (z : Z).

(** [void display(std::ostream& os)] (lines 119-157), line by line. *)
Definition display_L_line (st : LUMatrix R) (i : nat) : list printed :=
  map (fun j => Real (cell (_matrix st) i j)) (seq 0 i) ++
  [Symbol "1"%char] ++
  map (fun _ => Symbol "0"%char) (seq (i + 1) (_dim st - (i + 1))).

Definition display_U_line (st : LUMatrix R) (i : nat) : list printed :=
  map (fun _ => Symbol "0"%char) (seq 0 i) ++
  map (fun j => Real (cell (_matrix st) i j)) (seq i (_dim st - i)).

Definition display (st : LUMatrix R) : list (list printed) :=
  [[Text "Matrix L"%string]] ++
  map (display_L_line st) (seq 0 (_dim st)) ++
  [[Text "Matrix U"%string]] ++
  map (display_U_line st) (seq 0 (_dim st)) ++
  [Text "Swap vector "%string ::
     map (fun i => Integer (Z.of_nat (default 0%nat (_order st !! i)) + 1))
       (seq 0 (_dim st))] ++
  [[Text "swaps: "%string; Integer (_swaps st)]].

(** The number a printed item of [L] or [U] stands for. *)
Definition shown_value (item : printed) : option R :=
  match item with
  | Real x => Some x
  | Symbol "1"%char => Some (lit 1)
  | Symbol "0"%char => Some (lit 0)
  | _ => None
  end.

End IO.

Arguments printed R : clear implicits.

(** *** The constructor and its allocations *)

Section Construction.
Context {R : Type} `{Scalar R}.

(** The values of an [int], the type of the constructor's argument. *)
Definition is_int (z : Z) : Prop := - 2 ^ 31 <= z < 2 ^ 31.

(** How a call of the constructor ends: with an object and what was
    reported on [std::cerr], or with a [std::bad_alloc] that leaves the
    constructor, in which case there is no object. *)
Inductive construction : Type :=
| Constructed (st : LUMatrix R) (report : option LUMatrixException)
| BadAlloc.

(** [LUMatrix::LUMatrix(const int& n)] with its allocations.  For
    [n >= 1], lines 47-52 call [new] for the array of row pointers, for
    each of the [n] row buffers in turn, and for the row order.  A [new]
    that cannot be met throws [std::bad_alloc]; the handler of line 54
    catches [LUMatrixException] only, so this exception leaves the
    constructor.  [news k] tells whether the [k]-th [new] of the call
    succeeds.  [LUMatrix_new] is the constructor on a run on which all of
    them do. *)
Definition LUMatrix_construct (news : nat -> bool) (fill : R) (n : Z) : construction :=
  if n <? 1 then Constructed (mkLUMatrix 0 0 [] fill []) (Some (InvalidDimension n))
  else
    let d := Z.to_nat n in
    if negb (news 0%nat) then BadAlloc
    else if negb (forallb (fun i => news (1 + i)%nat) (seq 0 d)) then BadAlloc
    else if negb (news (1 + d)%nat) then BadAlloc
    else Constructed
           (mkLUMatrix d 0 (replicate d 0%nat) fill (replicate d (replicate d fill))) None.

End Construction.
Arguments construction R : clear implicits.

(** Lines 270-276 of [main].  The block reads [n] once; the [while] that
    follows it has an empty body, so it tests the same [n] again and again:
    [fuel] bounds the number of tests, and [None] is a loop still running
    when the fuel is spent. *)
Fixpoint await_size (fuel : nat) (n : Z) : option Z :=
  match fuel with
  | O => None
  | S fuel' => if (n <? 3) || (n >? 1000000) then await_size fuel' n else Some n
  end.

(** How a run of [main] ends: with the output of [display], together with
    what [decompose] reported on [std::cerr], or with the message of an
    exception caught by [main] itself. *)
Inductive main_outcome : Type :=
| Displayed (lines : list (list (printed float))) (log : option LUMatrixException)
| Reported (message : string).

(** The function [main] (lines 266-287) for the number [n] read at
    line 273 ([0] when that extraction fails, [n] being initialised to 0)
    and the extractions that follow, on a run on which the allocations
    of the constructor succeed. *)
Definition main (fuel : nat) (n : Z) (input : list (option float))
    : option main_outcome :=
  match await_size fuel n with
  | None => None
  | Some n =>
      let matrix := (LUMatrix_new 0%float n).1 in
      match read_matrix input matrix with
      | Throw e => Some (Reported (what e))
      | Ok (matrix, _) =>
          let out := decompose main_tolerance matrix in
          Some (Displayed (display out.1) out.2)
      end
  end.

(** A matrix of [double]s whose middle row is all zero. *)
Definition zero_middle_rows : list (list float) :=
  [[2; 1; 1]; [0; 0; 0]; [8; 7; 9]]%float.

(** * Properties *)

(** ** The laws hold in both arithmetics *)

Lemma Qltb_lt (a b : Q) : Qltb a b = true <-> (a < b)%Q.
Proof.
  unfold Qltb. rewrite negb_true_iff, <- not_true_iff_false, Qle_bool_iff.
  split; [apply Qnot_le_lt|apply Qlt_not_le].
Qed.

Lemma Qltb_ge (a b : Q) : Qltb a b = false <-> (b <= a)%Q.
Proof. unfold Qltb. by rewrite negb_false_iff, Qle_bool_iff. Qed.

#[global] Instance Q_laws : ScalarLaws Q.
Proof.
  split; try reflexivity.
  - intros a b. rewrite Qltb_lt, Qltb_ge. apply Qlt_le_weak.
  - intros a. apply Qltb_ge. apply Qabs_nonneg.
Qed.

Lemma SFcompare_antisym (x y : SpecFloat.spec_float) :
  SpecFloat.SFcompare y x = option_map CompOpp (SpecFloat.SFcompare x y).
Proof.
  destruct x as [[]|[]| |[] m1 e1], y as [[]|[]| |[] m2 e2]; simpl; try reflexivity.
  - rewrite (Z.compare_antisym e1 e2).
    destruct (e1 ?= e2)%Z; simpl; try reflexivity.
    by rewrite (Pos.compare_cont_antisym m1 m2 Eq).
  - rewrite (Z.compare_antisym e1 e2).
    destruct (e1 ?= e2)%Z; simpl; try reflexivity.
    by rewrite (Pos.compare_cont_antisym m1 m2 Eq).
Qed.

Lemma binary64_ltb_asym (a b : float) :
  PrimFloat.ltb a b = true -> PrimFloat.ltb b a = false.
Proof.
  rewrite !ltb_spec. unfold SpecFloat.SFltb.
  rewrite (SFcompare_antisym (Prim2SF a) (Prim2SF b)).
  by destruct (SpecFloat.SFcompare (Prim2SF a) (Prim2SF b)) as [[]|].
Qed.

Lemma binary64_abs_not_neg (a : float) : PrimFloat.ltb (PrimFloat.abs a) 0 = false.
Proof.
  rewrite ltb_spec, abs_spec.
  by destruct (Prim2SF a) as [[]|[]| |[] m e].
Qed.

#[global] Instance binary64_laws : ScalarLaws float.
Proof.
  split; try reflexivity.
  - apply binary64_ltb_asym.
  - apply binary64_abs_not_neg.
Qed.

(** *** The order and the quotient *)

Lemma Q_ordered (x : Q) : ~ unordered x.
Proof.
  intros Hx. destruct (Hx (x + 1)%Q) as [Hlt _].
  apply Qltb_ge in Hlt. lra.
Qed.

Lemma Qabs_Qdiv_Qabs (a b : Q) : Qabs (a / Qabs b) = (Qabs a / Qabs b)%Q.
Proof.
  destruct a as [an ad], b as [[|bn|bn] bd]; unfold Qdiv, Qinv, Qmult, Qabs; cbn [Qnum Qden Z.abs];
    f_equal; by rewrite Z.abs_mul.
Qed.

#[global] Instance Q_order : ScalarOrder Q.
Proof.
  split.
  - intros a b c Hac%Qltb_lt.
    destruct (Qlt_le_dec a b) as [Hab|Hba]; [left; by apply Qltb_lt|].
    right; left. apply Qltb_lt. lra.
  - apply Qabs_Qdiv_Qabs.
Qed.

Lemma SFltb_cotrans (a b c : SpecFloat.spec_float) :
  SpecFloat.SFltb a c = true ->
  SpecFloat.SFltb a b = true \/ SpecFloat.SFltb b c = true \/ b = SpecFloat.S754_nan.
Proof.
  unfold SpecFloat.SFltb.
  destruct b as [[]|[]| |[] mb eb]; try (by right; right);
  destruct a as [[]|[]| |[] ma ea]; try (by simpl);
  destruct c as [[]|[]| |[] mc ec]; try (by simpl); simpl;
    try (by left); try (by right; left); try discriminate.
  all: rewrite ?Pos.compare_cont_spec; simpl;
    destruct (Z.compare_spec ea ec), (Z.compare_spec ea eb), (Z.compare_spec eb ec);
      try lia; subst; simpl; try (by left); try (by right; left); try discriminate;
    destruct (Pos.compare_spec ma mc), (Pos.compare_spec ma mb), (Pos.compare_spec mb mc);
      try lia; subst; simpl; try (by left); try (by right; left); try discriminate.
Qed.

Lemma binary64_nan_unordered (b : float) :
  Prim2SF b = SpecFloat.S754_nan -> unordered b.
Proof.
  intros Hb x. change (PrimFloat.ltb b x = false /\ PrimFloat.ltb x b = false).
  rewrite !ltb_spec, Hb. unfold SpecFloat.SFltb.
  by destruct (Prim2SF x) as [[]|[]| |[] m e].
Qed.

Lemma SFabs_SFdiv prec emax (x y : SpecFloat.spec_float) :
  SpecFloat.SFabs (SpecFloat.SFdiv prec emax x (SpecFloat.SFabs y)) =
  SpecFloat.SFdiv prec emax (SpecFloat.SFabs x) (SpecFloat.SFabs y).
Proof.
  destruct x as [[]|[]| |[] mx ex], y as [[]|[]| |[] my ey]; try reflexivity;
    cbn [SpecFloat.SFabs SpecFloat.SFdiv xorb];
    destruct (SpecFloat.SFdiv_core_binary _ _ _ _ _ _) as [[mz ez] lz];
    unfold SpecFloat.binary_round_aux;
    destruct (SpecFloat.shr_fexp _ _ _ _ _) as [mrs' e'];
    destruct (SpecFloat.shr_fexp _ _ _ _ _) as [mrs'' e''];
    destruct (SpecFloat.shr_m mrs'') as [|m|m]; try reflexivity;
    by destruct (_ <=? _).
Qed.

Lemma binary64_abs_div (a b : float) :
  PrimFloat.abs (a / PrimFloat.abs b) = (PrimFloat.abs a / PrimFloat.abs b)%float.
Proof.
  apply Prim2SF_inj.
  rewrite abs_spec, !div_spec, !abs_spec. apply SFabs_SFdiv.
Qed.

#[global] Instance binary64_order : ScalarOrder float.
Proof.
  split.
  - intros a b c. change (flt a c) with (PrimFloat.ltb a c).
    change (flt a b) with (PrimFloat.ltb a b). change (flt b c) with (PrimFloat.ltb b c).
    rewrite !ltb_spec. intros [Hab|[Hbc|Hnan]]%(SFltb_cotrans _ (Prim2SF b)).
    + by left.
    + by right; left.
    + right; right. by apply binary64_nan_unordered.
  - apply binary64_abs_div.
Qed.

(** In binary64 the numbers that compare with nothing are the NaNs. *)
Lemma binary64_unordered (x : float) : unordered x <-> PrimFloat.is_nan x = true.
Proof.
  unfold PrimFloat.is_nan. rewrite FloatAxioms.eqb_spec. split.
  - intros Hx. destruct (Hx 1%float) as [H1 _], (Hx 0%float) as [_ H0].
    change (PrimFloat.ltb x 1 = false) in H1. change (PrimFloat.ltb 0 x = false) in H0.
    rewrite ltb_spec in H1, H0.
    change (Prim2SF 1) with (SpecFloat.S754_finite false 4503599627370496 (-52)) in H1.
    change (Prim2SF 0) with (SpecFloat.S754_zero false) in H0.
    destruct (Prim2SF x) as [[]|[]| |[] m e]; try done.
  - intros Hx. apply binary64_nan_unordered.
    destruct (Prim2SF x) as [[]|[]| |[] m e]; try done;
      unfold SpecFloat.SFeqb, SpecFloat.SFcompare in Hx;
      rewrite Z.compare_refl, Pos.compare_cont_refl in Hx; done.
Qed.

(** ** Grids, cells and rows *)

Section Grid.
Context {R : Type} `{Scalar R}.
Implicit Types (m : list (list R)) (st : LUMatrix R).

Lemma row_at_lookup m i row : m !! i = Some row -> row_at m i = row.
Proof. unfold row_at. by intros ->. Qed.

Lemma grid_row_length n m i : grid n m -> (i < n)%nat -> length (row_at m i) = n.
Proof.
  intros [Hlen Hrows] Hi.
  destruct (lookup_lt_is_Some_2 m i) as [row Hrow]; [lia|].
  rewrite (row_at_lookup _ _ _ Hrow).
  by apply (Forall_lookup_1 _ _ _ _ Hrows Hrow).
Qed.

Lemma grid_insert_row n m i row : grid n m -> length row = n -> grid n (<[i := row]> m).
Proof.
  intros [Hlen Hrows] Hrow. split.
  - by rewrite length_insert.
  - by apply Forall_insert.
Qed.

Lemma grid_set_cell n m i j v : grid n m -> grid n (set_cell m i j v).
Proof.
  intros Hg. unfold set_cell.
  destruct (decide (i < n)%nat) as [Hi|Hi].
  - apply grid_insert_row; [done|]. rewrite length_insert. by apply grid_row_length.
  - rewrite list_insert_ge; [done|]. destruct Hg as [-> _]. lia.
Qed.

Lemma grid_rswap n m i j :
  grid n m -> (i < n)%nat -> (j < n)%nat -> grid n (rswap m i j).
Proof.
  intros Hg Hi Hj. unfold rswap.
  apply grid_insert_row; [|by apply grid_row_length].
  apply grid_insert_row; [done|by apply grid_row_length].
Qed.

Lemma row_at_insert m i row i' :
  (i < length m)%nat ->
  row_at (<[i := row]> m) i' = if decide (i = i') then row else row_at m i'.
Proof.
  intros Hi. unfold row_at. destruct (decide (i = i')) as [<-|Hne].
  - by rewrite list_lookup_insert_eq.
  - by rewrite list_lookup_insert_ne.
Qed.

Lemma cell_set_cell n m i j v i' j' :
  grid n m -> (i < n)%nat -> (j < n)%nat ->
  cell (set_cell m i j v) i' j' = if decide (i = i' /\ j = j') then v else cell m i' j'.
Proof.
  intros Hg Hi Hj. unfold cell, set_cell.
  rewrite row_at_insert; [|destruct Hg as [-> _]; lia].
  destruct (decide (i = i')) as [<-|Hne].
  - destruct (decide (j = j')) as [<-|Hnej].
    + rewrite list_lookup_insert_eq; [|by rewrite (grid_row_length n m i)].
      by rewrite decide_True.
    + rewrite list_lookup_insert_ne; [|done]. rewrite decide_False; [done|tauto].
  - rewrite decide_False; [done|tauto].
Qed.

Lemma set_cell_same n m i j v :
  grid n m -> (i < n)%nat -> (j < n)%nat -> cell m i j = v -> set_cell m i j v = m.
Proof.
  intros Hg Hi Hj <-. unfold set_cell, cell.
  destruct (lookup_lt_is_Some_2 m i) as [row Hrow]; [destruct Hg as [-> _]; lia|].
  pose proof (grid_row_length n m i Hg Hi) as Hlen.
  rewrite (row_at_lookup _ _ _ Hrow) in *.
  destruct (lookup_lt_is_Some_2 row j) as [x Hx]; [lia|].
  rewrite Hx. simpl. rewrite (list_insert_id row j x Hx).
  by apply list_insert_id.
Qed.

End Grid.

(** ** Runs of the pivot loop *)

Section Run.
Context {R : Type} `{Scalar R}.
Implicit Types (m : list (list R)) (st : LUMatrix R).

Lemma index_best_loop_range st p rows index best r :
  index_best_loop st p rows index best = Ok r -> r = index \/ r ∈ rows.
Proof.
  revert index best. induction rows as [|i rows IH]; intros index best; simpl.
  - intros [= <-]. by left.
  - destruct (flt _ (_tolerance st)); [done|].
    destruct (fgt _ best); intros Hr; apply IH in Hr as [->|Hr];
      rewrite elem_of_cons; auto.
Qed.

Lemma index_best_range st p r :
  index_best st p = Ok r -> (p < _dim st)%nat -> (p <= r < _dim st)%nat.
Proof.
  intros Hr Hp. apply index_best_loop_range in Hr as [->|Hr]; [lia|].
  apply elem_of_seq in Hr. lia.
Qed.

Lemma index_best_loop_throws st p rows index best e :
  index_best_loop st p rows index best = Throw e -> e = LinearlyDependentRow.
Proof.
  revert index best. induction rows as [|i rows IH]; intros index best; simpl; [done|].
  destruct (flt _ (_tolerance st)); [by intros [= <-]|].
  destruct (fgt _ best); apply IH.
Qed.

Lemma pivot_step_throws st p e :
  pivot_step st p = Throw e -> e = LinearlyDependentRow /\ index_best st p = Throw e.
Proof.
  unfold pivot_step. destruct (index_best st p) as [swap|e'] eqn:Hib; [done|].
  intros [= <-]. split; [|done]. by apply index_best_loop_throws in Hib.
Qed.

Lemma pivot_step_dim st p st' : pivot_step st p = Ok st' -> _dim st' = _dim st.
Proof.
  unfold pivot_step. destruct (index_best st p); [|done].
  intros [= <-]. simpl. by destruct (decide _).
Qed.

Lemma pivot_step_tolerance st p st' :
  pivot_step st p = Ok st' -> _tolerance st' = _tolerance st.
Proof.
  unfold pivot_step. destruct (index_best st p); [|done].
  intros [= <-]. simpl. by destruct (decide _).
Qed.

Lemma steps_app ps qs st :
  steps (ps ++ qs) st =
  match steps ps st with Ok s => steps qs s | Throw e => Throw e end.
Proof.
  revert st. induction ps as [|p ps IH]; intros st; simpl; [done|].
  destruct (pivot_step st p); [apply IH|done].
Qed.

Lemma steps_dim ps st s : steps ps st = Ok s -> _dim s = _dim st.
Proof.
  revert st. induction ps as [|p ps IH]; intros st; simpl.
  - by intros [= <-].
  - destruct (pivot_step st p) as [st'|] eqn:Hstep; [|done].
    intros Hs. rewrite (IH _ Hs). by apply pivot_step_dim in Hstep.
Qed.

Lemma steps_tolerance ps st s : steps ps st = Ok s -> _tolerance s = _tolerance st.
Proof.
  revert st. induction ps as [|p ps IH]; intros st; simpl.
  - by intros [= <-].
  - destruct (pivot_step st p) as [st'|] eqn:Hstep; [|done].
    intros Hs. rewrite (IH _ Hs). by apply pivot_step_tolerance in Hstep.
Qed.

(** The loop ends either after all of its pivots, reporting nothing, or at
    the first pivot whose selection throws, with the store the completed
    pivots left. *)
Lemma pivot_loop_steps ps st :
  (steps ps st = Ok (pivot_loop ps st).1 /\ (pivot_loop ps st).2 = None) \/
  (exists k p, ps !! k = Some p /\
     steps (take k ps) st = Ok (pivot_loop ps st).1 /\
     pivot_step (pivot_loop ps st).1 p = Throw LinearlyDependentRow /\
     (pivot_loop ps st).2 = Some LinearlyDependentRow).
Proof.
  revert st. induction ps as [|p ps IH]; intros st; simpl; [by left|].
  destruct (pivot_step st p) as [st'|e] eqn:Hstep.
  - destruct (IH st') as [?|(k & q & Hq & Hk & Hthrow & Hlog)]; [by left|].
    right. exists (S k), q. simpl. by rewrite Hstep.
  - right. exists 0%nat, p. simpl.
    destruct (pivot_step_throws _ _ _ Hstep) as [-> _]. by rewrite Hstep.
Qed.

Lemma pivot_loop_completes ps st s :
  steps ps st = Ok s -> pivot_loop ps st = (s, None).
Proof.
  revert st. induction ps as [|p ps IH]; intros st; simpl.
  - by intros [= <-].
  - destruct (pivot_step st p); [apply IH|done].
Qed.

Lemma pivot_loop_aborts ps p qs st s e :
  steps ps st = Ok s -> pivot_step s p = Throw e ->
  pivot_loop (ps ++ p :: qs) st = (s, Some e).
Proof.
  revert st. induction ps as [|p' ps IH]; intros st; simpl.
  - intros [= <-] ->. done.
  - destruct (pivot_step st p'); [apply IH|done].
Qed.

Lemma seq_split_at (n k : nat) :
  (k < n)%nat -> seq 0 n = seq 0 k ++ k :: seq (S k) (n - S k).
Proof.
  intros Hk. replace n with (k + S (n - S k))%nat at 1 by lia.
  rewrite seq_app. simpl. done.
Qed.

End Run.

(** ** The tolerance, the accessor, the counter and the row order *)

Section Bookkeeping.
Context {R : Type} `{Scalar R}.
Implicit Types (m : list (list R)) (st : LUMatrix R).

Lemma decompose_final_steps tolerance st :
  exists k, (k <= _dim st)%nat /\
    decompose_steps tolerance st k = Ok (decompose tolerance st).1.
Proof.
  unfold decompose, decompose_steps. set (st0 := decompose_init tolerance st).
  change (_dim st0) with (_dim st).
  destruct (pivot_loop_steps (seq 0 (_dim st)) st0)
    as [[Hs _]|(k & p & Hp & Hs & _)].
  - exists (_dim st). split; [lia|done].
  - apply lookup_seq in Hp as [-> Hk]. exists k. split; [lia|].
    rewrite take_seq in Hs. by replace (k `min` _dim st)%nat with k in Hs by lia.
Qed.

(** C7. Whatever tolerance [t] is passed to [decompose], the tolerance the
    singularity check of [index_best] reads is [1/1024] when [t < 0] and
    [t] itself otherwise ([t = 0] included, [0 < 0] being false): this is
    the value stored before the pivot loop, held by the store at every
    pivot, and left in the store at the end. *)
Theorem decompose_tolerance (t : R) st :
  let effective := if flt t (lit 0) then fdiv (lit 1) (lit 1024) else t in
  _tolerance (decompose_init t st) = effective /\
  (forall k s, decompose_steps t st k = Ok s -> _tolerance s = effective) /\
  _tolerance (decompose t st).1 = effective.
Proof.
  simpl. split; [done|]. split.
  - intros k s Hs. by apply steps_tolerance in Hs.
  - destruct (decompose_final_steps t st) as (k & _ & Hs).
    by apply steps_tolerance in Hs.
Qed.

(** C9. The accessor [at] has no [return] statement: no call yields a
    slot.  With both indices in [1 .. n-1] control reaches the end of the
    function with nothing reported; otherwise the exception 2 ("index out
    of bounds") is thrown, caught and reported inside [at], and control
    reaches the same end. *)
Theorem at_never_returns st (i j : Z) :
  (forall a b, at_ st i j <> Slot a b) /\
  (1 <= i <= Z.of_nat (_dim st) - 1 -> 1 <= j <= Z.of_nat (_dim st) - 1 ->
   at_ st i j = NoValue None) /\
  (~ (1 <= i <= Z.of_nat (_dim st) - 1 /\ 1 <= j <= Z.of_nat (_dim st) - 1) ->
   at_ st i j = NoValue (Some (IndexOutOfBounds i j))).
Proof.
  unfold at_, IndexOutOfBounds.
  destruct (i <? 1) eqn:Hi1, (j <? 1) eqn:Hj1,
    (i >=? Z.of_nat (_dim st)) eqn:Hin, (j >=? Z.of_nat (_dim st)) eqn:Hjn;
    simpl; (split; [done|]); split; intros; try done; lia.
Qed.

Lemma init_order_lookup (n : nat) (o : list nat) (i : nat) :
  fold_left (fun o i => <[i := i]> o) (seq 0 n) o !! i =
  if decide (i < n /\ i < length o)%nat then Some i else o !! i.
Proof.
  induction n as [|n IH].
  - change (fold_left _ (seq 0 0) o) with o. rewrite decide_False; [done|lia].
  - rewrite seq_S, fold_left_app. cbn [fold_left].
    rewrite list_lookup_insert, IH.
    assert (Hlen : length (fold_left (fun o i => <[i := i]> o) (seq 0 n) o) = length o).
    { clear. revert o. generalize 0%nat.
      induction n as [|n IHn]; intros a o; simpl; [done|].
      by rewrite IHn, length_insert. }
    rewrite Hlen. repeat case_decide; try done; try lia. f_equal. lia.
Qed.

Lemma init_order (n : nat) (o : list nat) :
  length o = n -> fold_left (fun o i => <[i := i]> o) (seq 0 n) o = seq 0 n.
Proof.
  intros Hlen. apply list_eq. intros i. rewrite init_order_lookup.
  case_decide as Hi.
  - symmetry. apply lookup_seq. lia.
  - rewrite (proj2 (lookup_ge_None o i)) by lia.
    symmetry. apply lookup_ge_None. rewrite length_seq. lia.
Qed.

Lemma interchange_order st pivot swap :
  (pivot < length (_order st))%nat -> (swap < length (_order st))%nat ->
  _order (interchange st pivot swap) ≡ₚ _order st.
Proof.
  intros Hp Hs. unfold interchange. simpl.
  destruct (lookup_lt_is_Some_2 (_order st) pivot Hp) as [x Hx].
  destruct (lookup_lt_is_Some_2 (_order st) swap Hs) as [y Hy].
  rewrite Hx, Hy. simpl. by apply Permutation_insert_swap.
Qed.

Lemma pivot_step_order st p st' :
  pivot_step st p = Ok st' -> (p < _dim st)%nat ->
  length (_order st) = _dim st -> _order st' ≡ₚ _order st.
Proof.
  unfold pivot_step. destruct (index_best st p) as [swap|] eqn:Hib; [|done].
  intros [= <-] Hp Hlen. simpl.
  destruct (decide (swap <> p)); [|done].
  apply index_best_range in Hib; [|done].
  apply interchange_order; lia.
Qed.

Lemma pivot_step_swaps st p swap st' :
  index_best st p = Ok swap -> pivot_step st p = Ok st' ->
  _swaps st' = if decide (swap = p) then _swaps st else _swaps st + 1.
Proof.
  unfold pivot_step. intros ->. intros [= <-]. simpl.
  by destruct (decide (swap <> p)), (decide (swap = p)).
Qed.

Lemma steps_swaps ps st s :
  steps ps st = Ok s ->
  _swaps s = _swaps st + Z.of_nat (interchanges (selections ps st)).
Proof.
  revert st. induction ps as [|p ps IH]; intros st; simpl.
  - intros [= <-]. unfold interchanges. simpl. lia.
  - destruct (pivot_step st p) as [st'|] eqn:Hstep; [|done].
    intros Hs. destruct (index_best st p) as [swap|] eqn:Hib.
    + rewrite (IH _ Hs), (pivot_step_swaps _ _ _ _ Hib Hstep).
      unfold interchanges. rewrite filter_cons.
      destruct (decide (swap = p)) as [->|Hne].
      * rewrite decide_False by (simpl; tauto). lia.
      * rewrite decide_True by (simpl; congruence). simpl. lia.
    + unfold pivot_step in Hstep. by rewrite Hib in Hstep.
Qed.

Lemma steps_order ps st s :
  steps ps st = Ok s -> Forall (fun p => p < _dim st)%nat ps ->
  length (_order st) = _dim st -> _order s ≡ₚ _order st.
Proof.
  revert st. induction ps as [|p ps IH]; intros st; simpl.
  - by intros [= <-].
  - destruct (pivot_step st p) as [st'|] eqn:Hstep; [|done].
    intros Hs Hps Hlen. apply Forall_cons in Hps as [Hp Hps].
    pose proof (pivot_step_order _ _ _ Hstep Hp Hlen) as Hperm.
    pose proof (pivot_step_dim _ _ _ Hstep) as Hdim.
    rewrite <- Hperm. apply IH; [done| |].
    + by rewrite Hdim.
    + by rewrite Hdim, <- Hlen, Hperm.
Qed.

(** C5. In a run of [decompose] on a well-formed store, after any number
    [k] of completed pivots the counter has grown by exactly the number of
    those pivots at which [index_best] selected another row than the pivot
    row (the iterations that call [rswap]); a pivot that selects its own
    row leaves the counter alone.  The constructor sets the counter to 0,
    so a first decomposition reports exactly the number of interchanges.
    The row order is [0, 1, ..., n-1] when the loop starts and a
    permutation of it after every completed pivot, the last one
    included. *)
Theorem swap_count_and_permutation (tolerance : R) st :
  wf st ->
  _order (decompose_init tolerance st) = seq 0 (_dim st) /\
  (forall s p swap s',
     index_best s p = Ok swap -> pivot_step s p = Ok s' ->
     _swaps s' = if decide (swap = p) then _swaps s else _swaps s + 1) /\
  (forall k s, (k <= _dim st)%nat -> decompose_steps tolerance st k = Ok s ->
     let done := selections (seq 0 k) (decompose_init tolerance st) in
     _swaps s = _swaps st + Z.of_nat (interchanges done) /\
     (_swaps st = 0 -> _swaps s = Z.of_nat (interchanges done)) /\
     _order s ≡ₚ seq 0 (_dim st)) /\
  (exists k, (k <= _dim st)%nat /\
     decompose_steps tolerance st k = Ok (decompose tolerance st).1).
Proof.
  intros (_ & Hlen).
  assert (Hinit : _order (decompose_init tolerance st) = seq 0 (_dim st)).
  { simpl. by apply init_order. }
  split; [done|]. split; [apply pivot_step_swaps|].
  split; [|apply decompose_final_steps].
  intros k s Hk Hs. unfold decompose_steps in Hs.
  pose proof (steps_swaps _ _ _ Hs) as Hswaps. simpl in Hswaps.
  split; [done|]. split; [intros H0; rewrite H0 in Hswaps; simpl in *; lia|].
  rewrite <- Hinit. apply (steps_order _ _ _ Hs).
  - apply Forall_forall. intros p Hp%elem_of_seq. simpl. lia.
  - rewrite Hinit. simpl. by rewrite length_seq.
Qed.

End Bookkeeping.

(** ** The singularity check *)

Section Singular.
Context {R : Type} `{Scalar R}.
Implicit Types (m : list (list R)) (st : LUMatrix R).

Lemma scan_row_max_abs m n i p : exists x, scan_row_max m n i p = fabs x.
Proof.
  unfold scan_row_max. generalize (seq p (n - p)), (cell m i p).
  intros cols. induction cols as [|j cols IH]; intros x; simpl; [by exists x|].
  destruct (fgt _ _); apply IH.
Qed.

Lemma index_best_loop_dependent st p rows index best i :
  i ∈ rows ->
  flt (scan_row_max (_matrix st) (_dim st) i p) (_tolerance st) = true ->
  index_best_loop st p rows index best = Throw LinearlyDependentRow.
Proof.
  intros Hi Hsmall. revert index best.
  induction rows as [|i' rows IH]; intros index best; [by apply elem_of_nil in Hi|].
  simpl.
  destruct (flt (scan_row_max _ _ i' p) (_tolerance st)) eqn:Hi'; [reflexivity|].
  apply elem_of_cons in Hi as [->|Hi]; [congruence|].
  destruct (fgt _ best); by apply IH.
Qed.

Lemma index_best_loop_throw_inv st p rows index best e :
  index_best_loop st p rows index best = Throw e ->
  exists i, i ∈ rows /\
    flt (scan_row_max (_matrix st) (_dim st) i p) (_tolerance st) = true.
Proof.
  revert index best. induction rows as [|i rows IH]; intros index best; simpl; [done|].
  destruct (flt _ (_tolerance st)) eqn:Hi.
  - intros _. exists i. split; [by left|done].
  - destruct (fgt _ best); intros (i' & Hi' & Hsmall)%IH;
      exists i'; (split; [by right|done]).
Qed.

Lemma index_best_loop_total st p rows index best :
  (forall i, i ∈ rows ->
     flt (scan_row_max (_matrix st) (_dim st) i p) (_tolerance st) = false) ->
  exists r, index_best_loop st p rows index best = Ok r.
Proof.
  intros Hall. destruct (index_best_loop st p rows index best) as [r|e] eqn:Hib.
  - by exists r.
  - apply index_best_loop_throw_inv in Hib as (i & Hi & Hsmall).
    rewrite (Hall i Hi) in Hsmall. done.
Qed.

Lemma zero_row_max `{!ScalarLaws R} m n z p :
  (p < n)%nat -> (forall j, (j < n)%nat -> cell m z j = lit 0) ->
  scan_row_max m n z p = lit 0.
Proof.
  intros Hp Hzero. unfold scan_row_max. rewrite (Hzero p Hp), fabs_0.
  assert (Hcols : Forall (fun j => j < n)%nat (seq p (n - p))).
  { apply Forall_forall. intros j Hj%elem_of_seq. lia. }
  induction Hcols as [|j cols Hj _ IH]; simpl; [done|].
  rewrite (Hzero j Hj), fabs_0. by destruct (fgt _ _).
Qed.

(** With the tolerance at exactly 0 no selection throws, and so no run of
    the pivot loop stops early. *)
Lemma index_best_zero_tolerance `{!ScalarLaws R} st p :
  _tolerance st = lit 0 -> exists r, index_best st p = Ok r.
Proof.
  intros Htol. apply index_best_loop_total. intros i _.
  destruct (scan_row_max_abs (_matrix st) (_dim st) i p) as [x ->].
  rewrite Htol. apply fabs_not_neg.
Qed.

Lemma steps_zero_tolerance `{!ScalarLaws R} ps st :
  _tolerance st = lit 0 -> exists s, steps ps st = Ok s.
Proof.
  revert st. induction ps as [|p ps IH]; intros st Htol; simpl; [by exists st|].
  destruct (pivot_step st p) as [st'|e] eqn:Hstep.
  - apply IH. by rewrite (pivot_step_tolerance _ _ _ Hstep).
  - apply pivot_step_throws in Hstep as [_ Hib].
    destruct (index_best_zero_tolerance st p Htol) as [r Hr]. congruence.
Qed.

(** C4, as far as it holds.  Whenever a run of [decompose] has completed
    the pivots before [k] and a row [i >= k] scanned at pivot [k] has its
    maximum over the columns from [k] on below the tolerance, [decompose]
    reports the exception 4 ("linearly dependent row detected") and leaves
    the store exactly as the pivots before [k] left it: the rest of the
    loop is not run.  Conversely a reported exception is always this one,
    raised at such a row.  In particular a store with an all-zero row and
    a positive effective tolerance fails at pivot 0, before any cell has
    been written: its grid is the input grid. *)
Theorem dependent_row_aborts `{!ScalarLaws R} (tolerance : R) st :
  (forall k s i, (k <= i < _dim st)%nat ->
     decompose_steps tolerance st k = Ok s ->
     flt (scan_row_max (_matrix s) (_dim s) i k) (_tolerance s) = true ->
     decompose tolerance st = (s, Some LinearlyDependentRow)) /\
  (forall e, (decompose tolerance st).2 = Some e ->
     e = LinearlyDependentRow /\
     exists k i, (k <= i < _dim st)%nat /\
       decompose_steps tolerance st k = Ok (decompose tolerance st).1 /\
       flt (scan_row_max (_matrix (decompose tolerance st).1) (_dim st) i k)
           (_tolerance (decompose tolerance st).1) = true) /\
  (forall z, (z < _dim st)%nat ->
     (forall j, (j < _dim st)%nat -> cell (_matrix st) z j = lit 0) ->
     flt (lit 0) (effective_tolerance tolerance) = true ->
     decompose tolerance st = (decompose_init tolerance st, Some LinearlyDependentRow) /\
     _matrix (decompose tolerance st).1 = _matrix st).
Proof.
  assert (Habort : forall k s i, (k <= i < _dim st)%nat ->
     decompose_steps tolerance st k = Ok s ->
     flt (scan_row_max (_matrix s) (_dim s) i k) (_tolerance s) = true ->
     decompose tolerance st = (s, Some LinearlyDependentRow)).
  { intros k s i Hi Hs Hsmall. unfold decompose, decompose_steps in *.
    change (_dim (decompose_init tolerance st)) with (_dim st).
    rewrite (seq_split_at (_dim st) k) by lia.
    apply (pivot_loop_aborts _ _ _ _ _ _ Hs).
    unfold pivot_step, index_best.
    rewrite (index_best_loop_dependent s k _ k (lit 0) i); [done| |done].
    apply elem_of_seq. apply steps_dim in Hs. simpl in Hs. lia. }
  split; [done|]. split.
  - intros e He. unfold decompose, decompose_steps in *.
    set (st0 := decompose_init tolerance st) in *.
    change (_dim st0) with (_dim st) in *.
    destruct (pivot_loop_steps (seq 0 (_dim st)) st0)
      as [[_ Hnone]|(k & p & Hp & Hs & Hthrow & Hlog)]; [congruence|].
    split; [congruence|].
    apply lookup_seq in Hp as [-> Hk]. simpl in Hk.
    rewrite take_seq in Hs. replace (k `min` _dim st)%nat with k in Hs by lia.
    apply pivot_step_throws in Hthrow as [_ Hib].
    apply index_best_loop_throw_inv in Hib as (i & Hi%elem_of_seq & Hsmall).
    pose proof (steps_dim _ _ _ Hs) as Hdim. change (_dim st0) with (_dim st) in Hdim.
    rewrite Hdim in *. exists k, i. split; [lia|]. split; [done|done].
  - intros z Hz Hzero Hpos.
    assert (Hfail : decompose tolerance st =
                    (decompose_init tolerance st, Some LinearlyDependentRow)).
    { apply (Habort 0%nat _ z); [lia|done|]. simpl.
      rewrite (zero_row_max _ _ z 0); [done|lia|done]. }
    split; [done|]. by rewrite Hfail.
Qed.

End Singular.

(** ** Decomposing the identity matrix *)

Section Identity.
Context {R : Type} `{Scalar R} `{!ScalarLaws R}.
Implicit Types (m : list (list R)) (st : LUMatrix R).

Lemma flt_irrefl (a : R) : flt a a = false.
Proof. destruct (flt a a) eqn:Ha; [|done]. by rewrite (flt_asym a a Ha) in Ha. Qed.

Lemma flt_1_0 : flt (lit 1) (lit 0) = false.
Proof. apply flt_asym, flt_0_1. Qed.

Lemma tabulate_lookup {A} (n : nat) (f : nat -> A) (i : nat) :
  (i < n)%nat -> tabulate n f !! i = Some (f i).
Proof.
  intros Hi. unfold tabulate. rewrite list_lookup_fmap.
  by rewrite (proj2 (lookup_seq 0 n i i) (conj eq_refl Hi)).
Qed.

Lemma identity_grid_grid d : grid d (identity_grid d).
Proof.
  split.
  - unfold identity_grid, tabulate. by rewrite length_map, length_seq.
  - apply Forall_forall. unfold identity_grid, tabulate.
    intros row (i & -> & _)%list_elem_of_fmap. by rewrite length_map, length_seq.
Qed.

Lemma identity_grid_cell d i j :
  (i < d)%nat -> (j < d)%nat -> cell (identity_grid d) i j = identity_entry i j.
Proof.
  intros Hi Hj. unfold cell, row_at, identity_grid.
  rewrite (tabulate_lookup d _ i Hi). simpl. by rewrite (tabulate_lookup d _ j Hj).
Qed.

Lemma fabs_identity_entry i j : fabs (identity_entry i j) = identity_entry i j :> R.
Proof. unfold identity_entry. destruct (decide (i = j)); [apply fabs_1|apply fabs_0]. Qed.

(** Once the running maximum is 1 no cell of an identity row raises it. *)
Lemma identity_scan_from_1 d i cols :
  (i < d)%nat -> Forall (fun j => j < d)%nat cols ->
  fold_left
    (fun row_max j =>
       if fgt (fabs (cell (identity_grid d) i j)) row_max
       then fabs (cell (identity_grid d) i j) else row_max)
    cols (lit 1) = lit 1.
Proof.
  intros Hi Hcols. induction Hcols as [|j cols Hj _ IH]; simpl; [done|].
  rewrite (identity_grid_cell d i j Hi Hj), fabs_identity_entry.
  unfold fgt, identity_entry. destruct (decide (i = j)).
  - by rewrite flt_irrefl.
  - by rewrite flt_1_0.
Qed.

(** From 0 the running maximum becomes 1 at the diagonal cell. *)
Lemma identity_scan_from_0 d i cols :
  (i < d)%nat -> Forall (fun j => j < d)%nat cols -> i ∈ cols ->
  fold_left
    (fun row_max j =>
       if fgt (fabs (cell (identity_grid d) i j)) row_max
       then fabs (cell (identity_grid d) i j) else row_max)
    cols (lit 0) = lit 1.
Proof.
  intros Hi Hcols. induction Hcols as [|j cols Hj Hcols IH]; simpl.
  - by intros ?%elem_of_nil.
  - intros Hin. rewrite (identity_grid_cell d i j Hi Hj), fabs_identity_entry.
    unfold fgt, identity_entry. destruct (decide (i = j)) as [<-|Hne].
    + rewrite flt_0_1. by apply identity_scan_from_1.
    + rewrite flt_irrefl. apply IH.
      apply elem_of_cons in Hin as [?|?]; [done|done].
Qed.

Lemma identity_row_max d i p :
  (p <= i < d)%nat -> scan_row_max (identity_grid d) d i p = lit 1.
Proof.
  intros Hi. unfold scan_row_max.
  assert (Hcols : Forall (fun j => j < d)%nat (seq p (d - p))).
  { apply Forall_forall. intros j Hj%elem_of_seq. lia. }
  rewrite identity_grid_cell, fabs_identity_entry by lia.
  unfold identity_entry. destruct (decide (i = p)) as [->|Hne].
  - apply identity_scan_from_1; [lia|done].
  - apply identity_scan_from_0; [lia|done|]. apply elem_of_seq. lia.
Qed.

(** The rows below the pivot row have ratio 0 and do not replace it. *)
Lemma identity_index_best_rest st p rows :
  _matrix st = identity_grid (_dim st) ->
  flt (lit 1) (_tolerance st) = false ->
  Forall (fun i => p < i < _dim st)%nat rows ->
  index_best_loop st p rows p (lit 1) = Ok p.
Proof.
  intros Hm Htol Hrows. induction Hrows as [|i rows Hi _ IH]; simpl; [done|].
  rewrite Hm, identity_row_max, Htol by lia.
  rewrite identity_grid_cell, fabs_identity_entry by lia.
  unfold identity_entry at 1. rewrite decide_False by lia.
  unfold fgt. by rewrite fdiv_0_1, flt_1_0.
Qed.

Lemma identity_index_best st p :
  _matrix st = identity_grid (_dim st) ->
  flt (lit 1) (_tolerance st) = false ->
  (p < _dim st)%nat -> index_best st p = Ok p.
Proof.
  intros Hm Htol Hp. unfold index_best.
  replace (_dim st - p)%nat with (S (_dim st - S p)) by lia. simpl.
  rewrite Hm, identity_row_max, Htol by lia.
  rewrite identity_grid_cell, fabs_identity_entry by lia.
  unfold identity_entry. rewrite decide_True by done.
  unfold fgt. rewrite fdiv_1_1, flt_0_1, fabs_1.
  apply identity_index_best_rest; [done|done|].
  apply Forall_forall. intros i Hi%elem_of_seq. lia.
Qed.

Lemma identity_eliminate_row d p r :
  (p < r < d)%nat -> eliminate_row d p (identity_grid d) r = identity_grid d.
Proof.
  intros Hr.
  assert (Hzero : cell (identity_grid d) r p = lit 0).
  { rewrite identity_grid_cell by lia. unfold identity_entry.
    by rewrite decide_False by lia. }
  assert (Hc : fdiv (cell (identity_grid d) r p) (cell (identity_grid d) p p) = lit 0).
  { rewrite Hzero, identity_grid_cell by lia. unfold identity_entry.
    rewrite decide_True by done. apply fdiv_0_1. }
  unfold eliminate_row. rewrite Hc.
  assert (Hcols : Forall (fun col => p < col < d)%nat (seq (p + 1) (d - (p + 1)))).
  { apply Forall_forall. intros j Hj%elem_of_seq. lia. }
  assert (Hinner :
    fold_left
      (fun m col =>
         set_cell m r col (fsub (cell m r col) (fmul (lit 0) (cell m p col))))
      (seq (p + 1) (d - (p + 1))) (identity_grid d) = identity_grid d).
  { induction Hcols as [|col cols Hcol _ IH]; simpl; [done|].
    rewrite (identity_grid_cell d p col) by lia.
    unfold identity_entry at 1. rewrite decide_False, fmul_0_0 by lia.
    rewrite (set_cell_same d); [done|apply identity_grid_grid|lia|lia|].
    rewrite identity_grid_cell by lia. unfold identity_entry.
    destruct (decide (r = col)); [by rewrite fsub_1_0|by rewrite fsub_0_0]. }
  rewrite Hinner.
  apply (set_cell_same d); [apply identity_grid_grid|lia|lia|done].
Qed.

Lemma identity_eliminate d p : eliminate d p (identity_grid d) = identity_grid d.
Proof.
  unfold eliminate.
  assert (Hrows : Forall (fun r => p < r < d)%nat (seq (p + 1) (d - (p + 1)))).
  { apply Forall_forall. intros j Hj%elem_of_seq. lia. }
  induction Hrows as [|r rows Hr _ IH]; simpl; [done|].
  by rewrite identity_eliminate_row.
Qed.

(** A pivot on an identity grid selects its own row and changes nothing. *)
Lemma identity_pivot_step st p :
  _matrix st = identity_grid (_dim st) ->
  flt (lit 1) (_tolerance st) = false ->
  (p < _dim st)%nat -> pivot_step st p = Ok st.
Proof.
  intros Hm Htol Hp. unfold pivot_step.
  rewrite identity_index_best by done. rewrite decide_False by tauto.
  destruct st as [d sw o tol m]. simpl in *. subst m.
  by rewrite identity_eliminate.
Qed.

Lemma identity_steps st ps :
  _matrix st = identity_grid (_dim st) ->
  flt (lit 1) (_tolerance st) = false ->
  Forall (fun p => p < _dim st)%nat ps -> steps ps st = Ok st.
Proof.
  intros Hm Htol Hps. induction Hps as [|p ps Hp _ IH]; simpl; [done|].
  by rewrite identity_pivot_step.
Qed.

Lemma below_1_passes (tolerance : R) :
  flt tolerance (lit 1) = true -> flt (lit 1) (effective_tolerance tolerance) = false.
Proof.
  intros Hlt. unfold effective_tolerance. destruct (flt tolerance (lit 0)).
  - apply flt_asym, default_tolerance_lt_1.
  - by apply flt_asym.
Qed.

(** C3. For every [n >= 1] and every tolerance below 1, decomposing the
    n-by-n identity matrix reports no exception and leaves the identity
    grid: [L] as displayed (the stored entries below the diagonal, which
    are all 0, with 1 on the diagonal and 0 above) and [U] as displayed
    (the stored entries on and above the diagonal, 0 below) are both the
    identity; the swap counter is 0 and the row order is
    [0, 1, ..., n-1]. *)
Theorem identity_decomposition (n : Z) (tolerance : R) :
  1 <= n -> flt tolerance (lit 1) = true ->
  let out := decompose tolerance (identity_store n) in
  out.2 = None /\
  (forall i j, (i < Z.to_nat n)%nat -> (j < Z.to_nat n)%nat ->
     cell (_matrix out.1) i j = identity_entry i j /\
     L_entry out.1 i j = identity_entry i j /\
     U_entry out.1 i j = identity_entry i j) /\
  _swaps out.1 = 0 /\
  _order out.1 = seq 0 (Z.to_nat n).
Proof.
  intros Hn Hlt.
  set (d := Z.to_nat n).
  set (st0 := decompose_init tolerance (identity_store n)).
  assert (Hstore : identity_store n =
    mkLUMatrix d 0 (replicate d 0%nat) (lit 0) (identity_grid d)).
  { unfold identity_store, LUMatrix_new. by rewrite (proj2 (Z.ltb_ge n 1) Hn). }
  assert (Hst0 : st0 =
    mkLUMatrix d 0 (seq 0 d) (effective_tolerance tolerance) (identity_grid d)).
  { unfold st0, decompose_init. rewrite Hstore. simpl.
    by rewrite init_order by apply length_replicate. }
  assert (Hrun : decompose tolerance (identity_store n) = (st0, None)).
  { unfold decompose. fold st0. apply pivot_loop_completes.
    apply identity_steps; rewrite Hst0; simpl.
    - done.
    - by apply below_1_passes.
    - apply Forall_forall. intros p Hp%elem_of_seq. lia. }
  simpl. rewrite Hrun, Hst0. simpl. split; [done|]. split; [|done].
  intros i j Hi Hj. pose proof (identity_grid_cell d i j Hi Hj) as Hcell.
  split; [done|]. unfold L_entry, U_entry. simpl. rewrite Hcell.
  unfold identity_entry.
  split; repeat case_decide; try done; lia.
Qed.

End Identity.

(** ** Pivot selection in any arithmetic *)

Section Selection.
Context {R : Type} `{ScalarLaws R} `{!ScalarOrder R}.
Implicit Types (m : list (list R)) (st : LUMatrix R).











End Selection.

(** ** Pivot selection in exact arithmetic *)

Section Exact.
Implicit Types (m : list (list Q)) (st : LUMatrix Q).
Local Open Scope Q_scope.

Lemma row_max_nonneg m n i p : 0 <= scan_row_max m n i p.
Proof. destruct (scan_row_max_abs m n i p) as [x ->]. apply Qabs_nonneg. Qed.

Lemma ratio_exact st p i :
  ratio st p i = Qabs (cell (_matrix st) i p) / scan_row_max (_matrix st) (_dim st) i p.
Proof. reflexivity. Qed.

Lemma ratio_nonneg st p i : 0 <= ratio st p i.
Proof.
  rewrite ratio_exact. unfold Qdiv.
  apply Qmult_le_0_compat; [apply Qabs_nonneg|].
  apply Qinv_le_0_compat, row_max_nonneg.
Qed.

(** Line 219 stores [|m[i][p] / row_max|]; line 217 compared
    [|m[i][p]| / row_max].  They are the same number. *)
Lemma best_is_ratio st p i :
  Qabs (cell (_matrix st) i p / scan_row_max (_matrix st) (_dim st) i p) == ratio st p i.
Proof.
  rewrite ratio_exact. unfold Qdiv.
  rewrite Qabs_Qmult, Qabs_Qinv.
  by rewrite (Qabs_pos (scan_row_max _ _ _ _)) by apply row_max_nonneg.
Qed.

(** The inner loop computes the maximum of the scanned absolute values. *)
Lemma scan_fold_max (f : nat -> Q) (cols : list nat) (start : Q) :
  let result := fold_left (fun row_max j => if Qltb row_max (f j) then f j else row_max)
                  cols start in
  start <= result /\
  (forall j, j ∈ cols -> f j <= result) /\
  (result = start \/ exists j, j ∈ cols /\ result = f j).
Proof.
  revert start. induction cols as [|j cols IH]; intros start; simpl.
  - split; [lra|]. split; [by intros j ?%elem_of_nil|by left].
  - destruct (Qltb start (f j)) eqn:Hlt.
    + apply Qltb_lt in Hlt. destruct (IH (f j)) as (Hge & Hall & Hwit).
      split; [lra|]. split.
      * intros j' [->|Hj']%elem_of_cons; [done|by apply Hall].
      * right. destruct Hwit as [->|(j' & Hj' & ->)].
        -- exists j. split; [by left|done].
        -- exists j'. split; [by right|done].
    + apply Qltb_ge in Hlt. destruct (IH start) as (Hge & Hall & Hwit).
      split; [done|]. split.
      * intros j' [->|Hj']%elem_of_cons; [lra|by apply Hall].
      * destruct Hwit as [->|(j' & Hj' & ->)]; [by left|].
        right. exists j'. split; [by right|done].
Qed.

Lemma scan_row_max_is_max m n i p :
  (p < n)%nat ->
  (forall j, (p <= j < n)%nat -> Qabs (cell m i j) <= scan_row_max m n i p) /\
  (exists j, (p <= j < n)%nat /\ scan_row_max m n i p = Qabs (cell m i j)).
Proof.
  intros Hp.
  destruct (scan_fold_max (fun j => Qabs (cell m i j)) (seq p (n - p)) (Qabs (cell m i p)))
    as (Hge & Hall & Hwit).
  split.
  - intros j Hj. apply Hall, elem_of_seq. lia.
  - destruct Hwit as [Hstart|(j & Hj%elem_of_seq & Hres)].
    + exists p. split; [lia|done].
    + exists j. split; [lia|done].
Qed.

Lemma index_best_loop_exact_cons st p i rows index best :
  index_best_loop st p (i :: rows) index best =
  if Qltb (scan_row_max (_matrix st) (_dim st) i p) (_tolerance st)
  then Throw LinearlyDependentRow
  else if Qltb best (ratio st p i)
       then index_best_loop st p rows i
              (Qabs (cell (_matrix st) i p / scan_row_max (_matrix st) (_dim st) i p))
       else index_best_loop st p rows index best.
Proof. reflexivity. Qed.

Lemma index_best_loop_exact st p k a index best :
  (forall i, (a <= i < a + k)%nat ->
     ~ scan_row_max (_matrix st) (_dim st) i p < _tolerance st) ->
  (p <= a)%nat -> scanned st p a index best ->
  exists r best', index_best_loop st p (seq a k) index best = Ok r /\
    scanned st p (a + k) r best'.
Proof.
  revert a index best. induction k as [|k IH]; intros a index best Htol Hpa Hinv.
  - exists index, best. split; [reflexivity|]. by rewrite Nat.add_0_r.
  - change (seq a (S k)) with (a :: seq (S a) k).
    rewrite index_best_loop_exact_cons.
    destruct (Qltb _ (_tolerance st)) eqn:Hsmall.
    { apply Qltb_lt in Hsmall. destruct (Htol a); [lia|done]. }
    destruct Hinv as (Hpi & Hia & Hbest0 & Hbest & Hall & Hfirst & Hpos).
    destruct (Qltb best (ratio st p a)) eqn:Hgt.
    + apply Qltb_lt in Hgt.
      destruct (IH (S a) a
                  (Qabs (cell (_matrix st) a p / scan_row_max (_matrix st) (_dim st) a p)))
        as (r & best' & Hr & Hinv').
      * intros i Hi. apply Htol. lia.
      * lia.
      * pose proof (best_is_ratio st p a) as Heq.
        repeat split; try lia.
        -- apply Qabs_nonneg.
        -- rewrite Heq. lra.
        -- intros i Hi. rewrite Heq.
           destruct (decide (i = a)) as [->|]; [lra|].
           assert (ratio st p i <= best) by (apply Hall; lia). lra.
        -- intros i Hi. assert (ratio st p i <= best) by (apply Hall; lia). lra.
        -- intros _. lra.
      * exists r, best'. split; [exact Hr|].
        by replace (a + S k)%nat with (S a + k)%nat by lia.
    + apply Qltb_ge in Hgt.
      destruct (IH (S a) index best) as (r & best' & Hr & Hinv').
      * intros i Hi. apply Htol. lia.
      * lia.
      * repeat split; try done; try lia.
        intros i Hi. destruct (decide (i = a)) as [->|]; [done|]. apply Hall. lia.
      * exists r, best'. split; [exact Hr|].
        by replace (a + S k)%nat with (S a + k)%nat by lia.
Qed.

(** In exact arithmetic every ratio compares with every other, and the
    statement reads with the order of the rationals: the number divided
    by is the largest [|m[i][j]|] over the columns [j] of [[p, n)]; no
    row of [[p, n)] has a larger ratio than the row [r] returned; every
    row of [[p, r)] has a strictly smaller one; and [r] is [p] when no
    row has a ratio above 0. *)
Lemma index_best_exact_largest_ratio st p :
  (p < _dim st)%nat ->
  (forall i, (p <= i < _dim st)%nat ->
     ~ scan_row_max (_matrix st) (_dim st) i p < _tolerance st) ->
  (forall i, (p <= i < _dim st)%nat ->
     (forall j, (p <= j < _dim st)%nat ->
        Qabs (cell (_matrix st) i j) <= scan_row_max (_matrix st) (_dim st) i p) /\
     (exists j, (p <= j < _dim st)%nat /\
        scan_row_max (_matrix st) (_dim st) i p = Qabs (cell (_matrix st) i j))) /\
  exists r, index_best st p = Ok r /\ (p <= r < _dim st)%nat /\
    (forall i, (p <= i < _dim st)%nat -> ratio st p i <= ratio st p r) /\
    (forall i, (p <= i < r)%nat -> ratio st p i < ratio st p r) /\
    ((forall i, (p <= i < _dim st)%nat -> ~ 0 < ratio st p i) -> r = p).
Proof.
  intros Hp Htol. split.
  { intros i _. by apply scan_row_max_is_max. }
  destruct (index_best_loop_exact st p (_dim st - p) p p 0) as (r & best & Hr & Hinv).
  - intros i Hi. apply Htol. lia.
  - lia.
  - unfold scanned. split; [lia|]. split; [by right|]. split; [lra|].
    split; [apply ratio_nonneg|]. split; [intros i Hi; lia|].
    split; [intros i Hi; lia|done].
  - replace (p + (_dim st - p))%nat with (_dim st) in Hinv by lia.
    destruct Hinv as (Hpr & Hrn & Hbest0 & Hbest & Hall & Hfirst & Hpos).
    exists r. split; [exact Hr|]. split; [lia|]. split; [|split; [done|]].
    + intros i Hi. specialize (Hall i Hi). lra.
    + intros Hnone. destruct (decide (r = p)) as [|Hne]; [done|].
      destruct (Hnone r); [lia|by apply Hpos].
Qed.

(** *** Scaling a row *)

Lemma scale_row_cell st k i i' j :
  cell (_matrix (scale_row k i st)) i' j ==
  if decide (i' = i) then k * cell (_matrix st) i j else cell (_matrix st) i' j.
Proof.
  unfold scale_row, cell, row_at. simpl.
  destruct (decide (i' = i)) as [->|Hne].
  - destruct (decide (i < length (_matrix st))%nat) as [Hi|Hi].
    + rewrite list_lookup_insert_eq by done. simpl.
      rewrite list_lookup_fmap. destruct (default [] (_matrix st !! i) !! j); simpl; [done|].
      change (inject_Z 0) with 0. lra.
    + rewrite list_insert_ge by lia.
      rewrite (proj2 (lookup_ge_None (_matrix st) i)) by lia. simpl.
      change (inject_Z 0) with 0. lra.
  - by rewrite list_lookup_insert_ne.
Qed.

Lemma scan_fold_scaled (f g : nat -> Q) (k : Q) (cols : list nat) (a b : Q) :
  0 < k -> (forall j, g j == k * f j) -> b == k * a ->
  fold_left (fun row_max j => if Qltb row_max (g j) then g j else row_max) cols b ==
  k * fold_left (fun row_max j => if Qltb row_max (f j) then f j else row_max) cols a.
Proof.
  intros Hk Hg. revert a b. induction cols as [|j cols IH]; intros a b Hb; simpl; [done|].
  destruct (Qltb a (f j)) eqn:Ha, (Qltb b (g j)) eqn:Hb'.
  - apply IH, Hg.
  - apply Qltb_lt in Ha. apply Qltb_ge in Hb'. rewrite Hg, Hb in Hb'.
    apply (proj1 (Qmult_le_l _ _ _ Hk)) in Hb'. lra.
  - apply Qltb_ge in Ha. apply Qltb_lt in Hb'. rewrite Hg, Hb in Hb'.
    apply (proj1 (Qmult_lt_l _ _ _ Hk)) in Hb'. lra.
  - by apply IH.
Qed.

Lemma scale_row_max st k i p :
  0 < k ->
  scan_row_max (_matrix (scale_row k i st)) (_dim st) i p ==
  k * scan_row_max (_matrix st) (_dim st) i p.
Proof.
  intros Hk. unfold scan_row_max.
  assert (Habs : forall j, Qabs (cell (_matrix (scale_row k i st)) i j) ==
                           k * Qabs (cell (_matrix st) i j)).
  { intros j. rewrite (scale_row_cell st k i i j), decide_True by done.
    rewrite Qabs_Qmult, (Qabs_pos k); [done|lra]. }
  apply (scan_fold_scaled (fun j => Qabs (cell (_matrix st) i j))
           (fun j => Qabs (cell (_matrix (scale_row k i st)) i j)) k); [done|done|].
  apply Habs.
Qed.

Lemma scale_row_other st k i i' :
  i' <> i -> row_at (_matrix (scale_row k i st)) i' = row_at (_matrix st) i'.
Proof. intros Hne. unfold scale_row, row_at. simpl. by rewrite list_lookup_insert_ne. Qed.

Lemma scale_row_max_other st k i i' p :
  i' <> i ->
  scan_row_max (_matrix (scale_row k i st)) (_dim st) i' p =
  scan_row_max (_matrix st) (_dim st) i' p.
Proof. intros Hne. unfold scan_row_max, cell. by rewrite scale_row_other. Qed.

Lemma Qdiv_scaled (k c d : Q) : 0 < k -> (k * c) / (k * d) == c / d.
Proof.
  intros Hk. destruct (Qeq_dec d 0) as [Hd|Hd].
  - rewrite Hd, Qmult_0_r. unfold Qdiv. change (/ 0) with 0. ring.
  - field. split; [done|lra].
Qed.

Lemma scale_row_ratio st k i p :
  0 < k -> ratio (scale_row k i st) p i == ratio st p i.
Proof.
  intros Hk. rewrite !ratio_exact. change (_dim (scale_row k i st)) with (_dim st).
  rewrite (scale_row_max st k i p Hk).
  rewrite (scale_row_cell st k i i p), decide_True by done.
  rewrite Qabs_Qmult, (Qabs_pos k) by lra. by apply Qdiv_scaled.
Qed.

Lemma scale_row_quotient st k i p :
  0 < k ->
  cell (_matrix (scale_row k i st)) i p /
    scan_row_max (_matrix (scale_row k i st)) (_dim st) i p ==
  cell (_matrix st) i p / scan_row_max (_matrix st) (_dim st) i p.
Proof.
  intros Hk. rewrite (scale_row_max st k i p Hk).
  rewrite (scale_row_cell st k i i p), decide_True by done. by apply Qdiv_scaled.
Qed.

Lemma index_best_loop_scaled st k i p rows index best best' r :
  0 < k -> best' == best ->
  (i ∈ rows -> ~ k * scan_row_max (_matrix st) (_dim st) i p < _tolerance st) ->
  index_best_loop st p rows index best = Ok r ->
  index_best_loop (scale_row k i st) p rows index best' = Ok r.
Proof.
  intros Hk. revert index best best'.
  induction rows as [|x rows IH]; intros index best best' Hbest Hpass; [done|].
  rewrite !index_best_loop_exact_cons.
  change (_dim (scale_row k i st)) with (_dim st).
  change (_tolerance (scale_row k i st)) with (_tolerance st).
  destruct (Qltb (scan_row_max (_matrix st) (_dim st) x p) (_tolerance st)) eqn:Hx; [done|].
  assert (Hx' : Qltb (scan_row_max (_matrix (scale_row k i st)) (_dim st) x p)
                  (_tolerance st) = false).
  { destruct (decide (x = i)) as [->|Hne].
    - apply Qltb_ge. rewrite scale_row_max by done.
      apply Qnot_lt_le, Hpass. by left.
    - by rewrite scale_row_max_other. }
  rewrite Hx'.
  assert (Hratio : ratio (scale_row k i st) p x == ratio st p x).
  { destruct (decide (x = i)) as [->|Hne]; [by apply scale_row_ratio|].
    rewrite !ratio_exact. change (_dim (scale_row k i st)) with (_dim st).
    rewrite scale_row_max_other by done. unfold cell. by rewrite scale_row_other. }
  assert (Hnew :
    Qabs (cell (_matrix (scale_row k i st)) x p /
          scan_row_max (_matrix (scale_row k i st)) (_dim st) x p) ==
    Qabs (cell (_matrix st) x p / scan_row_max (_matrix st) (_dim st) x p)).
  { destruct (decide (x = i)) as [->|Hne]; [by rewrite scale_row_quotient|].
    rewrite scale_row_max_other by done. unfold cell. by rewrite scale_row_other. }
  assert (Hrest : i ∈ rows ->
            ~ k * scan_row_max (_matrix st) (_dim st) i p < _tolerance st).
  { intros Hi. apply Hpass. by right. }
  destruct (Qltb best (ratio st p x)) eqn:Hgt,
           (Qltb best' (ratio (scale_row k i st) p x)) eqn:Hgt'.
  - by apply IH.
  - apply Qltb_lt in Hgt. apply Qltb_ge in Hgt'. rewrite Hratio, Hbest in Hgt'. lra.
  - apply Qltb_ge in Hgt. apply Qltb_lt in Hgt'. rewrite Hratio, Hbest in Hgt'. lra.
  - by apply IH.
Qed.

(** C8, as far as it holds.  In exact arithmetic, let [index_best] return
    row [r] at pivot [p], and let every cell of a candidate row [i] of
    [[p, n)] be multiplied by a constant [k > 0].  If the scaled row still
    passes the tolerance test (its maximum, [k * row_max], is not below
    the tolerance), [index_best] returns the same row [r]; otherwise it
    throws the exception 4 and returns no row. *)
Theorem scaling_keeps_selected_row st p i k r :
  0 < k -> (p <= i < _dim st)%nat ->
  index_best st p = Ok r ->
  (~ k * scan_row_max (_matrix st) (_dim st) i p < _tolerance st ->
   index_best (scale_row k i st) p = Ok r) /\
  (k * scan_row_max (_matrix st) (_dim st) i p < _tolerance st ->
   index_best (scale_row k i st) p = Throw LinearlyDependentRow).
Proof.
  intros Hk Hi Hr. split.
  - intros Hpass. unfold index_best.
    change (_dim (scale_row k i st)) with (_dim st).
    apply (index_best_loop_scaled st k i p _ p (inject_Z 0) (inject_Z 0)); done.
  - intros Hsmall. apply (index_best_loop_dependent _ _ _ _ _ i).
    + apply elem_of_seq. simpl. lia.
    + apply Qltb_lt. change (_dim (scale_row k i st)) with (_dim st).
      change (_tolerance (scale_row k i st)) with (_tolerance st).
      by rewrite scale_row_max.
Qed.

End Exact.

(** ** Runs on concrete matrices *)

Section Scenarios.

Lemma store_of_wf {R} `{Scalar R} (rows : list (list Z)) :
  (1 <= length rows)%nat -> wf (store_of (R := R) rows).
Proof.
  intros Hlen. unfold store_of, store_of_rows, LUMatrix_new.
  rewrite length_map.
  rewrite (proj2 (Z.ltb_ge (Z.of_nat (length rows)) 1)) by lia.
  unfold wf, grid, populate, tabulate. simpl.
  rewrite Nat2Z.id, !length_map, !length_seq, length_replicate.
  split; [split; [done|]|done].
  apply Forall_forall. intros row (i & -> & _)%list_elem_of_fmap.
  by rewrite length_map, length_seq.
Qed.

(** C2, as it holds.  On the scenario matrix [[2,1,1],[4,3,3],[8,7,9]]
    the ratios of rows 0, 1 and 2 at pivot 0 are 2/2 = 1, 4/4 = 1 and 8/9,
    so the first pivot selects row 0 (the earliest row of ratio 1), not
    row 2.  With the tolerance of [main] the decomposition completes
    without any interchange: the swap counter is 0, the row order is
    [0, 1, 2] and the grid is [[2,1,1],[2,1,1],[4,3,2]].  This is so in
    binary64 and in exact arithmetic alike. *)
Theorem scenario_selects_row_0 :
  let st := decompose_init main_tolerance (store_of scenario_rows) in
  let stq := decompose_init (1 # 1000000)%Q (store_of scenario_rows) in
  (ratio stq 0 0 == 1 /\ ratio stq 0 1 == 1 /\ ratio stq 0 2 == 8 # 9)%Q /\
  index_best stq 0 = Ok 0%nat /\
  index_best st 0 = Ok 0%nat /\
  decompose main_tolerance (store_of scenario_rows) =
    (mkLUMatrix 3 0 [0; 1; 2]%nat main_tolerance
       [[2; 1; 1]; [2; 1; 1]; [4; 3; 2]]%float, None) /\
  _swaps (decompose (1 # 1000000)%Q (store_of scenario_rows)).1 = 0 /\
  (decompose (1 # 1000000)%Q (store_of scenario_rows)).2 = None.
Proof. vm_compute. repeat split. Qed.

Lemma scenario_not_row_2 :
  let st := decompose_init main_tolerance (store_of scenario_rows) in
  index_best st 0 <> Ok 2%nat /\
  ~ 1 <= _swaps (decompose main_tolerance (store_of scenario_rows)).1.
Proof. vm_compute. split; [discriminate|]. intros Hle. by apply Hle. Qed.

(** C6.  On the 3-by-3 scenario store, [at(1, 1)] has both indices in
    bounds and yet yields no slot: control reaches the end of the function
    without a [return].  [at(0, 1)] is out of bounds: the exception 2 is
    thrown, caught and reported inside [at], which then reaches the same
    end. *)
Theorem at_in_bounds_yields_no_slot :
  at_ (store_of (R := float) scenario_rows) 1 1 = NoValue None /\
  at_ (store_of (R := float) scenario_rows) 0 1 = NoValue (Some (IndexOutOfBounds 0 1)).
Proof. split; reflexivity. Qed.

(** C10, as far as it holds.  In either arithmetic, when the tolerance
    [decompose] stores is exactly 0 (as when the caller passes 0, which
    line 84 keeps), no call of [index_best] throws, on any store and
    pivot: a scanned maximum is an absolute value, never below 0, and the
    test is strict.  So [decompose] runs through all of its pivots and
    reports nothing, and a matrix with an all-zero row is not rejected.
    In binary64, on [[0,0],[0,1]] the zero entry is then selected as the
    pivot and line 104 divides by it: the row below becomes NaN. *)
Theorem zero_tolerance_never_rejects :
  (forall (R : Type) (S : Scalar R), ScalarLaws R ->
   forall (tolerance : R) (st : LUMatrix R),
     effective_tolerance tolerance = lit 0 ->
     (forall s p, _tolerance s = lit 0 -> exists r, index_best s p = Ok r) /\
     decompose_steps tolerance st (_dim st) = Ok (decompose tolerance st).1 /\
     (decompose tolerance st).2 = None) /\
  effective_tolerance 0%float = 0%float /\
  effective_tolerance 0%Q = 0%Q /\
  decompose 0%float (store_of zero_first_rows) =
    (mkLUMatrix 2 0 [0; 1]%nat 0%float [[0; 0]; [nan; nan]]%float, None) /\
  divisors [0; 1]%nat (decompose_init 0%float (store_of zero_first_rows)) = [0%float].
Proof.
  split; [|by vm_compute].
  intros R S Laws tolerance st Htol. split; [apply index_best_zero_tolerance|].
  assert (Hinit : _tolerance (decompose_init tolerance st) = lit 0) by exact Htol.
  destruct (steps_zero_tolerance (seq 0 (_dim st)) _ Hinit) as [s Hs].
  unfold decompose, decompose_steps.
  change (_dim (decompose_init tolerance st)) with (_dim st).
  by rewrite (pivot_loop_completes _ _ _ Hs).
Qed.

Lemma zero_row_without_zero_divisor :
  effective_tolerance 0%float = 0%float /\
  cell (_matrix (store_of (R := float) zero_last_rows)) 1 0 = 0%float /\
  cell (_matrix (store_of (R := float) zero_last_rows)) 1 1 = 0%float /\
  decompose 0%float (store_of zero_last_rows) =
    (mkLUMatrix 2 0 [0; 1]%nat 0%float [[1; 0]; [0; 0]]%float, None) /\
  divisors [0; 1]%nat (decompose_init 0%float (store_of zero_last_rows)) = [1%float].
Proof. by vm_compute. Qed.

Lemma dependent_row_after_overflow :
  let out := decompose (-1)%float (store_of_rows overflow_rows) in
  all_finite overflow_rows = true /\
  out.2 = Some LinearlyDependentRow /\
  cell (_matrix out.1) 1 1 = infinity /\
  all_finite (_matrix out.1) = false.
Proof. by vm_compute. Qed.

Lemma scaling_can_reject :
  let st := decompose_init (-1)%Q (store_of [[1; 0]; [0; 1]]) in
  (0 < 1 # 2048)%Q /\
  index_best st 0 = Ok 0%nat /\
  index_best (scale_row (1 # 2048)%Q 0 st) 0 = Throw LinearlyDependentRow /\
  index_best (scale_row (1 # 2048)%Q 0 st) 0 <> index_best st 0.
Proof. vm_compute. repeat split; discriminate. Qed.

(** *** The general statements at work *)


(** On [rounding_rows] the exact ratios are 6004799503160661/2^54 and
    1/3, the second the larger; both round to the same [double], so the
    program keeps row 0 where exact arithmetic selects row 1. *)
Lemma rounded_ratios_tie :
  index_best (R := float) (store_of rounding_rows) 0 = Ok 0%nat /\
  ratio (R := float) (store_of rounding_rows) 0 0 = ratio (R := float) (store_of rounding_rows) 0 1 /\
  index_best (R := Q) (store_of rounding_rows) 0 = Ok 1%nat.
Proof. by vm_compute. Qed.

(** The 3-by-3 identity matrix in binary64, with the tolerance of [main]. *)
Lemma identity_decomposition_3 :
  let out := decompose main_tolerance (identity_store 3) in
  1 <= 3 /\ PrimFloat.ltb main_tolerance 1 = true /\
  out.2 = None /\ _swaps out.1 = 0 /\ _order out.1 = [0; 1; 2]%nat /\
  _matrix out.1 = [[1; 0; 0]; [0; 1; 0]; [0; 0; 1]]%float.
Proof.
  intros out.
  assert (Hn : 1 <= 3) by lia.
  assert (Htol : flt main_tolerance (lit 1) = true) by reflexivity.
  destruct (identity_decomposition 3 main_tolerance Hn Htol) as (Hlog & _ & Hswaps & Horder).
  repeat split; try done.
Defined.

(** A zero row in binary64, with the tolerance of [main]. *)
Lemma zero_row_aborts :
  let st := store_of (R := float) zero_last_rows in
  PrimFloat.ltb 0 (effective_tolerance main_tolerance) = true /\
  decompose main_tolerance st =
    (decompose_init main_tolerance st, Some LinearlyDependentRow).
Proof.
  intros st. split; [reflexivity|].
  destruct (dependent_row_aborts main_tolerance st) as (_ & _ & Hzero).
  apply (Hzero 1%nat).
  - vm_compute. lia.
  - intros [|[|j]] Hj; [reflexivity..|]. vm_compute in Hj. lia.
  - reflexivity.
Defined.

(** One interchange in binary64, counted once. *)
Lemma interchange_counted_once :
  let st := store_of (R := float) interchange_rows in
  let s := (decompose (-1)%float st).1 in
  wf st /\ decompose_steps (-1)%float st 3 = Ok s /\
  selections [0; 1; 2]%nat (decompose_init (-1)%float st) = [(0, 2); (1, 1); (2, 2)]%nat /\
  _swaps s = 1 /\ _order s ≡ₚ [0; 1; 2]%nat.
Proof.
  intros st s.
  assert (Hwf : wf st) by (apply store_of_wf; simpl; lia).
  assert (Hs : decompose_steps (-1)%float st 3 = Ok s) by (vm_compute; reflexivity).
  destruct (swap_count_and_permutation (-1)%float st Hwf) as (_ & _ & Hrun & _).
  destruct (Hrun 3%nat s) as (Hswaps & _ & Horder); [vm_compute; lia|exact Hs|].
  split; [exact Hwf|]. split; [exact Hs|]. split; [by vm_compute|].
  split; [by rewrite Hswaps|exact Horder].
Defined.

(** Doubling row 1 in exact arithmetic. *)
Lemma scaling_example :
  let st := decompose_init (-1)%Q (store_of interchange_rows) in
  (0 < 2)%Q /\ (0 <= 1 < _dim st)%nat /\ index_best st 0 = Ok 2%nat /\
  index_best (scale_row 2%Q 1 st) 0 = Ok 2%nat.
Proof.
  intros st.
  assert (Hk : (0 < 2)%Q) by reflexivity.
  assert (Hi : (0 <= 1 < _dim st)%nat) by (vm_compute; lia).
  assert (Hr : index_best st 0 = Ok 2%nat) by (vm_compute; reflexivity).
  destruct (scaling_keeps_selected_row st 0 1 2%Q 2 Hk Hi Hr) as [Hpass _].
  split; [exact Hk|]. split; [exact Hi|]. split; [exact Hr|].
  apply Hpass. vm_compute. discriminate.
Defined.

End Scenarios.

(** * Further properties of the store and of the decomposition *)

(** ** Every access stays inside the buffers *)

Section Safety.
Context {R : Type} `{Scalar R}.
Implicit Types (m : list (list R)) (st : LUMatrix R).

Lemma grid_eliminate_row n p m r : grid n m -> grid n (eliminate_row n p m r).
Proof.
  intros Hg. unfold eliminate_row. apply grid_set_cell.
  generalize (fdiv (cell m r p) (cell m p p)), (seq (p + 1) (n - (p + 1))).
  intros c cols. revert m Hg.
  induction cols as [|col cols IH]; intros m Hg; simpl; [done|].
  apply IH. by apply grid_set_cell.
Qed.

Lemma grid_eliminate n p m : grid n m -> grid n (eliminate n p m).
Proof.
  unfold eliminate. generalize (seq (p + 1) (n - (p + 1))). intros rows. revert m.
  induction rows as [|r rows IH]; intros m Hg; simpl; [done|].
  apply IH. by apply grid_eliminate_row.
Qed.

Lemma wf_interchange st pivot swap :
  wf st -> (pivot < _dim st)%nat -> (swap < _dim st)%nat ->
  wf (interchange st pivot swap).
Proof.
  intros [Hg Ho] Hp Hs. split; simpl.
  - by apply grid_rswap.
  - by rewrite !length_insert.
Qed.

Lemma wf_pivot_step st p st' :
  wf st -> (p < _dim st)%nat -> pivot_step st p = Ok st' -> wf st'.
Proof.
  intros Hwf Hp. unfold pivot_step.
  destruct (index_best st p) as [swap|] eqn:Hib; [|done].
  intros [= <-]. apply index_best_range in Hib; [|done].
  destruct (decide (swap <> p)).
  - destruct (wf_interchange st p swap Hwf) as [Hg Ho]; [lia..|].
    split; simpl in *; [by apply grid_eliminate|done].
  - destruct Hwf as [Hg Ho]. split; simpl; [by apply grid_eliminate|done].
Qed.


Lemma wf_decompose_init tolerance st : wf st -> wf (decompose_init tolerance st).
Proof.
  intros [Hg Ho]. split; simpl; [done|].
  rewrite init_order by done. apply length_seq.
Qed.


(** X2. Whatever the arithmetic does (rounding, NaN, infinities),
    [index_best] at pivot [p] either returns a row index of [[p, n)]
    ([p] itself when [p >= n], where nothing is scanned) or throws the
    exception 4; it never returns an index above the pivot range or below
    the pivot, and it never throws anything else. *)
Theorem index_best_in_range st (p : nat) :
  match index_best st p with
  | Ok r => (p <= r)%nat /\ ((r < _dim st)%nat \/ ((_dim st <= p)%nat /\ r = p))
  | Throw e => e = LinearlyDependentRow /\ (p < _dim st)%nat
  end.
Proof.
  destruct (index_best st p) as [r|e] eqn:Hib.
  - pose proof (index_best_loop_range _ _ _ _ _ _ Hib) as [->|Hr%elem_of_seq].
    + split; [lia|]. destruct (decide (p < _dim st)%nat); [by left|right; lia].
    + split; [lia|]. left. lia.
  - split; [by apply index_best_loop_throws in Hib|].
    destruct (decide (p < _dim st)%nat) as [|Hge]; [done|].
    unfold index_best in Hib. replace (_dim st - p)%nat with 0%nat in Hib by lia.
    done.
Qed.

(** *** Rows that are done stay as they are *)

Lemma row_at_rswap_other m a b i :
  i <> a -> i <> b -> row_at (rswap m a b) i = row_at m i.
Proof.
  intros Ha Hb. unfold rswap, row_at at 1.
  by rewrite !list_lookup_insert_ne by done.
Qed.

Lemma row_at_set_cell_other m r j v i :
  i <> r -> row_at (set_cell m r j v) i = row_at m i.
Proof.
  intros Hr. unfold set_cell, row_at at 1. by rewrite list_lookup_insert_ne by done.
Qed.

Lemma row_at_eliminate_row_other n p m r i :
  i <> r -> row_at (eliminate_row n p m r) i = row_at m i.
Proof.
  intros Hr. unfold eliminate_row. rewrite row_at_set_cell_other by done.
  generalize (fdiv (cell m r p) (cell m p p)), (seq (p + 1) (n - (p + 1))).
  intros c cols. revert m.
  induction cols as [|col cols IH]; intros m; simpl; [done|].
  by rewrite IH, row_at_set_cell_other.
Qed.

Lemma row_at_eliminate_above n p m i :
  (i <= p)%nat -> row_at (eliminate n p m) i = row_at m i.
Proof.
  intros Hi. unfold eliminate.
  assert (Hrows : Forall (fun r => i <> r) (seq (p + 1) (n - (p + 1)))).
  { apply Forall_forall. intros r Hr%elem_of_seq. lia. }
  revert m. induction Hrows as [|r rows Hr _ IH]; intros m; simpl; [done|].
  by rewrite IH, row_at_eliminate_row_other.
Qed.

Lemma pivot_step_rows_above st p st' i :
  pivot_step st p = Ok st' -> (i < p)%nat ->
  row_at (_matrix st') i = row_at (_matrix st) i.
Proof.
  unfold pivot_step. destruct (index_best st p) as [swap|] eqn:Hib; [|done].
  intros [= <-] Hi. simpl.
  assert (Hswap : (p <= swap)%nat).
  { apply index_best_loop_range in Hib as [->|Hr%elem_of_seq]; lia. }
  destruct (decide (swap <> p)); simpl.
  - rewrite row_at_eliminate_above by lia. apply row_at_rswap_other; lia.
  - apply row_at_eliminate_above. lia.
Qed.

Lemma steps_rows_above ps st s k i :
  steps ps st = Ok s -> Forall (fun p => k <= p)%nat ps -> (i < k)%nat ->
  row_at (_matrix s) i = row_at (_matrix st) i.
Proof.
  revert st. induction ps as [|p ps IH]; intros st; simpl.
  - by intros [= <-].
  - destruct (pivot_step st p) as [st'|] eqn:Hstep; [|done].
    intros Hs [Hp Hps]%Forall_cons Hi.
    rewrite (IH _ Hs Hps Hi). apply (pivot_step_rows_above _ _ _ _ Hstep). lia.
Qed.

Lemma seq_from_split (a n k : nat) :
  (k <= n)%nat -> seq a n = seq a k ++ seq (a + k) (n - k).
Proof. intros Hk. replace n with (k + (n - k))%nat at 1 by lia. apply seq_app. Qed.

(** X3. Once a run of [decompose] has completed the pivots before [k],
    the rows [0 .. k-1] of the grid are final: the store [decompose]
    leaves, whether it completes or stops at a later pivot with an
    exception, holds exactly these rows.  Later pivots only interchange
    and rewrite rows from their own pivot row on. *)
Theorem completed_rows_are_final (tolerance : R) st (k : nat) s :
  (k <= _dim st)%nat -> decompose_steps tolerance st k = Ok s ->
  forall i, (i < k)%nat ->
    row_at (_matrix (decompose tolerance st).1) i = row_at (_matrix s) i.
Proof.
  intros Hk Hs i Hi. unfold decompose, decompose_steps in *.
  set (st0 := decompose_init tolerance st) in *.
  change (_dim st0) with (_dim st).
  assert (Hge : forall a b, Forall (fun p => k <= p)%nat (seq (0 + k) (a - b))).
  { intros a b. apply Forall_forall. intros p Hp%elem_of_seq. lia. }
  pose proof (pivot_loop_steps (seq 0 (_dim st)) st0) as Hrun.
  set (final := (pivot_loop (seq 0 (_dim st)) st0).1) in *.
  destruct Hrun as [[Hall _]|(k' & p & Hp & Hpre & Hthrow & _)].
  - rewrite (seq_from_split 0 (_dim st) k Hk), steps_app, Hs in Hall.
    apply (steps_rows_above _ _ _ k i Hall); [apply Hge|done].
  - apply lookup_seq in Hp as [-> Hk']. simpl in Hk'.
    rewrite take_seq in Hpre. replace (k' `min` _dim st)%nat with k' in Hpre by lia.
    destruct (decide (k <= k')%nat) as [Hle|Hgt].
    + rewrite (seq_from_split 0 k' k Hle), steps_app, Hs in Hpre.
      apply (steps_rows_above _ _ _ k i Hpre); [apply Hge|done].
    + rewrite (seq_from_split 0 k k') in Hs by lia.
      rewrite steps_app, Hpre in Hs.
      replace (k - k')%nat with (S (k - S k')) in Hs by lia.
      change (0 + k')%nat with k' in *. cbn [seq steps] in Hs.
      by rewrite Hthrow in Hs.
Qed.

(** *** The counter is bounded *)

Lemma interchanges_bound st a k :
  (a + k <= _dim st)%nat ->
  (interchanges (selections (seq a k) st) <= _dim st - 1 - a)%nat.
Proof.
  revert a st. induction k as [|k IH]; intros a st Hak; simpl.
  - unfold interchanges. simpl. lia.
  - destruct (index_best st a) as [swap|] eqn:Hib; [|unfold interchanges; simpl; lia].
    destruct (pivot_step st a) as [st'|] eqn:Hstep; [|unfold interchanges; simpl; lia].
    apply index_best_range in Hib; [|lia].
    pose proof (pivot_step_dim _ _ _ Hstep) as Hdim.
    specialize (IH (S a) st'). rewrite Hdim in IH.
    unfold interchanges in *. rewrite filter_cons.
    destruct (decide ((a, swap).1 <> (a, swap).2)) as [Hne|Heq]; simpl in *; lia.
Qed.

(** X4. A run of [decompose] adds at least 0 and at most [n - 1] to the
    swap counter, whatever the cells and the tolerance: the last pivot
    scans only its own row and cannot interchange. *)
Theorem swap_count_bounds (tolerance : R) st :
  _swaps st <= _swaps (decompose tolerance st).1 <= _swaps st + Z.of_nat (_dim st - 1).
Proof.
  destruct (decompose_final_steps tolerance st) as (k & Hk & Hs).
  unfold decompose_steps in Hs. rewrite (steps_swaps _ _ _ Hs). simpl.
  pose proof (interchanges_bound (decompose_init tolerance st) 0 k) as Hb.
  simpl in Hb. lia.
Qed.

(** *** The row interchange *)

Lemma rswap_lookup m i j k :
  (i < length m)%nat -> (j < length m)%nat ->
  rswap m i j !! k = m !! (if decide (k = j) then i else if decide (k = i) then j else k).
Proof.
  intros Hi Hj. unfold rswap, row_at.
  destruct (lookup_lt_is_Some_2 m i Hi) as [ri Hri].
  destruct (lookup_lt_is_Some_2 m j Hj) as [rj Hrj].
  rewrite Hri, Hrj. simpl.
  destruct (decide (k = j)) as [->|Hkj].
  - by rewrite list_lookup_insert_eq by (by rewrite length_insert).
  - rewrite list_lookup_insert_ne by done.
    destruct (decide (k = i)) as [->|Hki].
    + by rewrite list_lookup_insert_eq.
    + by rewrite list_lookup_insert_ne.
Qed.

(** X5. [rswap] on two rows of the grid exchanges exactly these two row
    buffers: row [i] becomes the old row [j], row [j] the old row [i],
    every other row stays where it is, the rows are the same rows in
    another order, and a second [rswap] of the same pair undoes the
    first. *)
Theorem rswap_exchanges_two_rows m (i j : nat) :
  (i < length m)%nat -> (j < length m)%nat ->
  row_at (rswap m i j) i = row_at m j /\
  row_at (rswap m i j) j = row_at m i /\
  (forall k, k <> i -> k <> j -> row_at (rswap m i j) k = row_at m k) /\
  rswap m i j ≡ₚ m /\
  rswap (rswap m i j) i j = m.
Proof.
  intros Hi Hj.
  assert (Hlen : length (rswap m i j) = length m).
  { unfold rswap. by rewrite !length_insert. }
  split; [|split; [|split; [|split]]].
  - unfold row_at at 1. rewrite rswap_lookup by done.
    destruct (decide (i = j)) as [->|]; [done|]. by rewrite decide_True.
  - unfold row_at at 1. rewrite rswap_lookup by done. by rewrite decide_True.
  - intros k Hki Hkj. by apply row_at_rswap_other.
  - unfold rswap, row_at.
    destruct (lookup_lt_is_Some_2 m i Hi) as [ri Hri].
    destruct (lookup_lt_is_Some_2 m j Hj) as [rj Hrj].
    rewrite Hri, Hrj. simpl. by apply Permutation_insert_swap.
  - apply list_eq. intros k. rewrite rswap_lookup by lia.
    repeat case_decide; subst; rewrite rswap_lookup by done;
      repeat case_decide; subst; try done.
Qed.

(** *** The constructor and the row accessor *)

Lemma empty_store_outcomes (fill : R) :
  let st := mkLUMatrix 0 0 [] fill [] in
  (forall t, decompose t st = (mkLUMatrix 0 0 [] (effective_tolerance t) [], None)) /\
  (forall i j, at_ st i j = NoValue (Some (IndexOutOfBounds i j))) /\
  (forall row, row_access st row = (None, Some (RowIndexOutOfBounds row))).
Proof.
  cbv zeta. repeat split.
  - intros i j. unfold at_, IndexOutOfBounds. cbn [_dim].
    change (Z.of_nat 0) with 0. rewrite !Z.geb_leb.
    destruct (Z.ltb_spec i 1), (Z.ltb_spec j 1), (Z.leb_spec 0 i), (Z.leb_spec 0 j);
      simpl; try done; lia.
  - intros row. unfold row_access, RowIndexOutOfBounds. cbn [_dim].
    change (Z.of_nat 0) with 0. rewrite Z.geb_leb.
    destruct (Z.ltb_spec row 0), (Z.leb_spec 0 row); simpl; try done; lia.
Qed.

Lemma forallb_fails {A} (f : A -> bool) (l : list A) :
  forallb f l = false -> exists x, In x l /\ f x = false.
Proof.
  induction l as [|x l IH]; cbn [forallb]; [done|].
  destruct (f x) eqn:Hx; cbn [andb].
  - intros (y & Hy & Hfy)%IH. exists y. split; [by right|done].
  - intros _. exists x. split; [by left|done].
Qed.

Lemma news_all (news : nat -> bool) (d : nat) :
  news 0%nat = true -> forallb (fun i => news (1 + i)%nat) (seq 0 d) = true ->
  news (1 + d)%nat = true ->
  forall k, (k < d + 2)%nat -> news k = true.
Proof.
  intros H0 Hrows Hlast k Hk. rewrite forallb_forall in Hrows.
  destruct (decide (k = 0%nat)) as [->|]; [done|].
  destruct (decide (k = (1 + d)%nat)) as [->|]; [done|].
  replace k with (1 + (k - 1))%nat by lia. apply Hrows, in_seq. lia.
Qed.

(** X6. The constructor, called with an [int] [n], ends in one of three
    ways.  For [n < 1] no [new] is called: it reports the exception 1
    carrying [n] and leaves the empty store, on which [decompose] runs no
    pivot and reports nothing and every call of [at] and of [operator[]]
    reports an index out of bounds.  For [n >= 1] it calls [new] [n + 2]
    times: if all of them succeed it reports nothing and leaves a store
    of dimension [n] with [n] rows of [n] cells, [n] entries of row order
    and a swap counter of 0; if one of them fails, [std::bad_alloc]
    leaves the constructor, which reports nothing itself.  A store it
    leaves is well formed, and is the one [LUMatrix_new] gives. *)
Theorem constructor_outcome (news : nat -> bool) (fill : R) (n : Z) :
  is_int n ->
  match LUMatrix_construct news fill n with
  | Constructed st report =>
      wf st /\ _swaps st = 0 /\ (st, report) = LUMatrix_new fill n /\
      ((n < 1 /\ report = Some (InvalidDimension n) /\
        _dim st = 0%nat /\ _matrix st = [] /\ _order st = [] /\
        (forall t, decompose t st = (mkLUMatrix 0 0 [] (effective_tolerance t) [], None)) /\
        (forall i j, at_ st i j = NoValue (Some (IndexOutOfBounds i j))) /\
        (forall row, row_access st row = (None, Some (RowIndexOutOfBounds row)))) \/
       (1 <= n /\ report = None /\ Z.of_nat (_dim st) = n /\
        forall k, (k < Z.to_nat n + 2)%nat -> news k = true))
  | BadAlloc =>
      1 <= n /\ exists k, (k < Z.to_nat n + 2)%nat /\ news k = false
  end.
Proof.
  intros _. unfold LUMatrix_construct, LUMatrix_new.
  destruct (n <? 1) eqn:Hn.
  - apply Z.ltb_lt in Hn. split; [repeat split; constructor|]. split; [done|].
    split; [done|]. left. split; [done|]. split; [done|].
    destruct (empty_store_outcomes fill) as (Hdec & Hat & Hrow). by repeat split.
  - apply Z.ltb_ge in Hn. cbv zeta.
    destruct (news 0%nat) eqn:H0; cbn [negb];
      [|split; [done|]; exists 0%nat; split; [lia|done]].
    destruct (forallb _ _) eqn:Hrows; cbn [negb].
    2:{ split; [done|]. apply forallb_fails in Hrows as (i & Hi%in_seq & Hfail).
        exists (1 + i)%nat. split; [lia|done]. }
    destruct (news (1 + Z.to_nat n)%nat) eqn:Hlast; cbn [negb];
      [|split; [done|]; exists (1 + Z.to_nat n)%nat; split; [lia|done]].
    split.
    + split; [split|]; simpl.
      * apply length_replicate.
      * apply Forall_forall. intros row ->%elem_of_replicate_inv.
        apply length_replicate.
      * apply length_replicate.
    + split; [done|]. split; [done|]. right. split; [done|]. split; [done|].
      split; [cbn [_dim]; apply Z2Nat.id; lia|].
      by apply news_all.
Qed.

(** X7. On a well-formed store [operator[]] accepts exactly the rows
    [0 .. n-1]: for these it reports nothing and hands out the buffer of
    that row, which has [n] cells, cell [j] being [_matrix[row][j]]; for
    any other index it returns the null pointer and reports the
    exception 3 carrying the index. *)
Theorem row_access_bounds st (row : Z) :
  wf st ->
  (0 <= row < Z.of_nat (_dim st) ->
   exists buffer, row_access st row = (Some buffer, None) /\
     length buffer = _dim st /\
     forall j, (j < _dim st)%nat ->
       buffer !! j = Some (cell (_matrix st) (Z.to_nat row) j)) /\
  (~ 0 <= row < Z.of_nat (_dim st) ->
   row_access st row = (None, Some (RowIndexOutOfBounds row))).
Proof.
  intros [Hg _]. unfold row_access, RowIndexOutOfBounds. split.
  - intros Hrow.
    assert ((row <? 0) = false) as -> by lia.
    assert ((row >=? Z.of_nat (_dim st)) = false) as -> by lia. simpl.
    exists (row_at (_matrix st) (Z.to_nat row)). split; [done|].
    pose proof (grid_row_length _ _ (Z.to_nat row) Hg) as Hlen.
    split; [apply Hlen; lia|]. intros j Hj. unfold cell.
    destruct (lookup_lt_is_Some_2 (row_at (_matrix st) (Z.to_nat row)) j) as [x Hx].
    + rewrite Hlen; lia.
    + by rewrite Hx.
  - intros Hrow.
    destruct (row <? 0) eqn:Hlo; [done|].
    assert ((row >=? Z.of_nat (_dim st)) = true) as -> by lia. done.
Qed.

End Safety.

(** ** What the elimination writes *)

Section Elimination.
Context {R : Type} `{Scalar R}.
Implicit Types (m : list (list R)) (st : LUMatrix R).

Lemma grid_eliminate_cols n m r p c cols :
  grid n m ->
  grid n (fold_left
            (fun m col =>
               set_cell m r col (fsub (cell m r col) (fmul c (cell m p col))))
            cols m).
Proof.
  revert m. induction cols as [|col cols IH]; intros m Hg; simpl; [done|].
  apply IH. by apply grid_set_cell.
Qed.

Lemma cell_eliminate_cols n m r p c cols i j :
  grid n m -> (r < n)%nat -> r <> p ->
  Forall (fun col => col < n)%nat cols -> NoDup cols ->
  cell (fold_left
          (fun m col =>
             set_cell m r col (fsub (cell m r col) (fmul c (cell m p col))))
          cols m) i j =
  if decide (i = r /\ j ∈ cols)
  then fsub (cell m r j) (fmul c (cell m p j)) else cell m i j.
Proof.
  intros Hg Hr Hrp Hcols Hnd. revert m Hg.
  induction Hcols as [|col cols Hcol _ IH]; intros m Hg; simpl.
  - rewrite decide_False; [done|]. intros [_ []%elem_of_nil].
  - apply NoDup_cons in Hnd as [Hnotin Hnd].
    rewrite (IH Hnd) by (by apply grid_set_cell).
    rewrite !(cell_set_cell n) by done.
    destruct (decide (i = r /\ j ∈ cols)) as [[-> Hj]|Hno].
    + assert (col <> j) by (by intros ->).
      rewrite !decide_False by tauto.
      rewrite decide_True; [done|]. split; [done|by right].
    + destruct (decide (r = i /\ col = j)) as [[<- <-]|Hno'].
      * rewrite decide_True; [done|]. split; [done|by left].
      * rewrite decide_False; [done|].
        intros [-> [->|Hj]%elem_of_cons]; tauto.
Qed.


Lemma cell_eliminate_row n p m r i j :
  grid n m -> (p < r < n)%nat -> (j < n)%nat ->
  cell (eliminate_row n p m r) i j =
  if decide (i = r) then eliminated_cell m p r j else cell m i j.
Proof.
  intros Hg Hr Hj. unfold eliminate_row.
  set (c := fdiv (cell m r p) (cell m p p)).
  assert (Hcols : Forall (fun col => col < n)%nat (seq (p + 1) (n - (p + 1)))).
  { apply Forall_forall. intros col Hcol%elem_of_seq. lia. }
  rewrite (cell_set_cell n) by (by apply grid_eliminate_cols || lia).
  rewrite (cell_eliminate_cols n) by (done || lia || apply NoDup_seq).
  unfold eliminated_cell. fold c.
  destruct (decide (i = r)) as [->|Hne].
  - destruct (decide (j < p)%nat), (decide (j = p)) as [->|]; try lia.
    + rewrite decide_False by lia. rewrite decide_False; [done|].
      intros [_ Hin%elem_of_seq]. lia.
    + by rewrite decide_True.
    + rewrite decide_False by lia. rewrite decide_True; [done|].
      split; [done|]. apply elem_of_seq. lia.
  - rewrite decide_False by (intros [? ?]; congruence).
    rewrite decide_False; [done|tauto].
Qed.

Lemma cell_eliminate_rows n p m rows i j :
  grid n m -> Forall (fun r => p < r < n)%nat rows -> NoDup rows ->
  (j < n)%nat ->
  cell (fold_left (eliminate_row n p) rows m) i j =
  if decide (i ∈ rows) then eliminated_cell m p i j else cell m i j.
Proof.
  intros Hg Hrows Hnd Hj. revert m Hg.
  induction Hrows as [|r rows Hr _ IH]; intros m Hg; cbn [fold_left].
  - rewrite decide_False; [done|]. by intros ?%elem_of_nil.
  - apply NoDup_cons in Hnd as [Hnotin Hnd].
    rewrite (IH Hnd) by (by apply grid_eliminate_row).
    destruct (decide (i ∈ rows)) as [Hi|Hi].
    + assert (i <> r) by (by intros ->).
      rewrite decide_True by (by right).
      unfold eliminated_cell.
      rewrite !(cell_eliminate_row n) by (done || lia).
      rewrite !(decide_False (P := i = r)) by done.
      by rewrite !(decide_False (P := p = r)) by lia.
    + rewrite (cell_eliminate_row n) by done.
      destruct (decide (i = r)) as [->|Hne].
      * by rewrite decide_True by (by left).
      * rewrite decide_False; [done|]. by intros [?|?]%elem_of_cons.
Qed.

Lemma cell_eliminate n p m i j :
  grid n m -> (p < n)%nat -> (i < n)%nat -> (j < n)%nat ->
  cell (eliminate n p m) i j =
  if decide (i <= p)%nat then cell m i j else eliminated_cell m p i j.
Proof.
  intros Hg Hp Hi Hj. unfold eliminate.
  rewrite (cell_eliminate_rows n) by
    (done || apply NoDup_seq || (apply Forall_forall; intros r Hr%elem_of_seq; lia)).
  destruct (decide (i <= p)%nat).
  - rewrite decide_False; [done|]. intros Hin%elem_of_seq. lia.
  - rewrite decide_True; [done|]. apply elem_of_seq. lia.
Qed.

(** X8. The elimination at pivot [p], cell by cell and whatever the
    arithmetic: on an n-by-n grid it leaves the rows [0 .. p] as they
    were; in every row [i] below, the cells left of column [p] are
    untouched, cell [(i, p)] receives the multiplier
    [c = m[i][p] / m[p][p]] and each cell [(i, j)] right of it becomes
    [m[i][j] - c * m[p][j]], all read off the grid the elimination
    started from. *)
Theorem eliminate_cells n p m (i j : nat) :
  grid n m -> (p < n)%nat -> (i < n)%nat -> (j < n)%nat ->
  cell (eliminate n p m) i j =
  if decide (i <= p)%nat then cell m i j
  else if decide (j < p)%nat then cell m i j
  else if decide (j = p) then fdiv (cell m i p) (cell m p p)
  else fsub (cell m i j) (fmul (fdiv (cell m i p) (cell m p p)) (cell m p j)).
Proof.
  intros Hg Hp Hi Hj. by rewrite (cell_eliminate n).
Qed.

Lemma eliminate_divisors_prefix n p rows m (acc : list R) :
  exists rest,
    snd (fold_left
           (fun md row_elim =>
              (eliminate_row n p md.1 row_elim, md.2 ++ [cell md.1 p p]))
           rows (m, acc)) = acc ++ rest.
Proof.
  revert m acc. induction rows as [|r rows IH]; intros m acc; cbn [fold_left].
  - exists []. by rewrite app_nil_r.
  - destruct (IH (eliminate_row n p m r) (acc ++ [cell m p p])) as [rest Hrest].
    exists (cell m p p :: rest). cbn [fst snd]. rewrite Hrest.
    by rewrite <- app_assoc.
Qed.

Lemma eliminate_divisors_head n p m :
  (p + 1 < n)%nat -> exists rest, eliminate_divisors n p m = cell m p p :: rest.
Proof.
  intros Hp. unfold eliminate_divisors.
  replace (n - (p + 1))%nat with (S (n - (p + 2))) by lia. cbn [seq fold_left].
  cbn [fst snd app].
  apply (eliminate_divisors_prefix n p _ _ [cell m p p]).
Qed.

End Elimination.

(** ** The factors reproduce the permuted matrix *)

Section Factorisation.
Implicit Types (m A : list (list Q)) (st s : LUMatrix Q).
Local Open Scope Q_scope.

Lemma Qsum_ext c (f g : nat -> Q) :
  (forall t, (t < c)%nat -> f t == g t) -> Qsum c f == Qsum c g.
Proof.
  induction c as [|c IH]; intros Hfg; simpl; [done|].
  rewrite IH, (Hfg c) by (intros; apply Hfg || idtac; lia). done.
Qed.

Lemma Qsum_truncate n c (f : nat -> Q) :
  (c <= n)%nat -> (forall t, (c <= t < n)%nat -> f t == 0) -> Qsum n f == Qsum c f.
Proof.
  induction n as [|n IH]; intros Hc Hzero.
  - by replace c with 0%nat by lia.
  - destruct (decide (c = S n)) as [->|Hne]; [done|].
    simpl. rewrite IH, (Hzero n) by (intros; apply Hzero || idtac; lia). ring.
Qed.

Lemma cell_rswap m k sw i j :
  (k < length m)%nat -> (sw < length m)%nat ->
  cell (rswap m k sw) i j =
  cell m (if decide (i = sw) then k else if decide (i = k) then sw else i) j.
Proof. intros Hk Hsw. unfold cell, row_at. by rewrite rswap_lookup. Qed.

Lemma original_row_interchange s k sw i :
  (k < length (_order s))%nat -> (sw < length (_order s))%nat ->
  original_row (interchange s k sw) i =
  original_row s (if decide (i = sw) then k else if decide (i = k) then sw else i).
Proof.
  intros Hk Hsw. unfold original_row, interchange. simpl.
  destruct (lookup_lt_is_Some_2 (_order s) k Hk) as [ok Hok].
  destruct (lookup_lt_is_Some_2 (_order s) sw Hsw) as [osw Hosw].
  rewrite Hok, Hosw. simpl.
  destruct (decide (i = sw)) as [->|Hisw].
  - rewrite list_lookup_insert_eq by (by rewrite length_insert). by rewrite Hok.
  - rewrite list_lookup_insert_ne by done.
    destruct (decide (i = k)) as [->|Hik].
    + rewrite list_lookup_insert_eq by done. by rewrite Hosw.
    + by rewrite list_lookup_insert_ne.
Qed.

Lemma factored_init tolerance st :
  wf st -> factored (_matrix st) 0 (decompose_init tolerance st).
Proof.
  intros [_ Ho] i j Hi Hj. simpl in Hi, Hj.
  unfold original_row. cbn [decompose_init _order _matrix _dim].
  rewrite init_order by done.
  rewrite (proj2 (lookup_seq 0 (_dim st) i i)) by (split; [done|lia]).
  cbn [default]. rewrite Nat.min_0_r. cbn [Qsum].
  rewrite decide_True by lia. unfold id. ring.
Qed.

Lemma factored_interchange A k s sw :
  wf s -> (k <= sw < _dim s)%nat ->
  factored A k s -> factored A k (interchange s k sw).
Proof.
  intros [[Hlen _] Ho] Hsw Hinv i j Hi Hj. simpl in Hi, Hj.
  set (sigma := fun x => if decide (x = sw) then k else if decide (x = k) then sw else x).
  assert (Hsigma : forall x, (x < _dim s)%nat -> (sigma x < _dim s)%nat).
  { intros x Hx. unfold sigma. repeat case_decide; lia. }
  assert (Hmin : (sigma i `min` k = i `min` k)%nat).
  { unfold sigma. repeat case_decide; lia. }
  assert (Hbelow : forall t, (t < k)%nat -> sigma t = t).
  { intros t Ht. unfold sigma. repeat case_decide; lia. }
  rewrite original_row_interchange by lia. fold (sigma i).
  rewrite (Hinv (sigma i) j) by auto. rewrite Hmin.
  assert (Hcell : forall x y, cell (_matrix (interchange s k sw)) x y
                              = cell (_matrix s) (sigma x) y).
  { intros x y. simpl. by rewrite cell_rswap by lia. }
  rewrite Hcell. apply Qplus_comp; [|done].
  apply Qsum_ext. intros t Ht. rewrite Hcell.
  unfold U_entry. rewrite Hcell, (Hbelow t) by lia. done.
Qed.

Lemma factored_eliminate A k s :
  wf s -> (k < _dim s)%nat ->
  ((k + 1 < _dim s)%nat -> ~ cell (_matrix s) k k == 0) ->
  factored A k s ->
  factored A (S k)
    (mkLUMatrix (_dim s) (_swaps s) (_order s) (_tolerance s)
       (eliminate (_dim s) k (_matrix s))).
Proof.
  intros [Hg Ho] Hk Hpivot Hinv i j Hi Hj. simpl in Hi, Hj.
  set (M := _matrix s) in *. set (n := _dim s) in *.
  change (original_row _ i) with (original_row s i).
  rewrite (Hinv i j Hi Hj). fold M. cbn [_matrix _dim].
  assert (Hrow : forall x y, (x <= k)%nat -> (x < n)%nat -> (y < n)%nat ->
            cell (eliminate n k M) x y = cell M x y).
  { intros x y Hxk Hx Hy. rewrite (cell_eliminate n) by done. by rewrite decide_True. }
  assert (HU : forall t, (t <= k)%nat -> (t < n)%nat ->
            U_entry (mkLUMatrix n (_swaps s) (_order s) (_tolerance s) (eliminate n k M)) t j
            = U_entry s t j).
  { intros t Htk Ht. unfold U_entry. cbn [_matrix]. fold M. by rewrite Hrow. }
  destruct (decide (i <= k)%nat) as [Hik|Hik].
  - replace (i `min` S k)%nat with (i `min` k)%nat by lia.
    rewrite Hrow by done. apply Qplus_comp; [|done].
    apply Qsum_ext. intros t Ht. rewrite Hrow, HU by lia. done.
  - replace (i `min` S k)%nat with (S k) by lia.
    replace (i `min` k)%nat with k by lia.
    cbn [Qsum]. rewrite HU by lia.
    rewrite (Qsum_ext k
               (fun t => cell (eliminate n k M) i t *
                         U_entry (mkLUMatrix n (_swaps s) (_order s) (_tolerance s)
                                    (eliminate n k M)) t j)
               (fun t => cell M i t * U_entry s t j)).
    2:{ intros t Ht. rewrite HU by lia.
        rewrite (cell_eliminate n) by (done || lia).
        rewrite decide_False by lia. unfold eliminated_cell.
        by rewrite decide_True by lia. }
    rewrite !(cell_eliminate n) by (done || lia).
    rewrite !(decide_False (P := (i <= k)%nat)) by lia.
    unfold eliminated_cell, U_entry. fold M.
    change (lit 0) with 0. cbn [fsub fmul fdiv Q_scalar].
    rewrite !(decide_False (P := (k < k)%nat)) by lia.
    rewrite !(decide_True (P := k = k)) by done.
    destruct (decide (j < k)%nat) as [Hjk|Hjk].
    + rewrite !(decide_False (P := (k <= j)%nat)) by lia.
      rewrite !(decide_False (P := (S k <= j)%nat)) by lia. ring.
    + rewrite !(decide_True (P := (k <= j)%nat)) by lia.
      destruct (decide (j = k)) as [->|Hne].
      * rewrite !(decide_False (P := (S k <= k)%nat)) by lia.
        field. apply Hpivot. lia.
      * rewrite !(decide_True (P := (S k <= j)%nat)) by lia. ring.
Qed.

Lemma factored_steps A k a s s' :
  wf s -> (a + k <= _dim s)%nat -> factored A a s ->
  steps (seq a k) s = Ok s' ->
  Forall (fun d => ~ d == 0) (divisors (seq a k) s) ->
  factored A (a + k) s'.
Proof.
  revert a s. induction k as [|k IH]; intros a s Hwf Hak Hinv.
  - cbn [seq steps]. intros [= <-] _. by rewrite Nat.add_0_r.
  - cbn [seq steps divisors].
    destruct (pivot_step s a) as [s1|] eqn:Hstep; [|done].
    destruct (index_best s a) as [swap|] eqn:Hib;
      [|unfold pivot_step in Hstep; by rewrite Hib in Hstep].
    intros Hs' [Hhere Hrest]%Forall_app.
    pose proof (wf_pivot_step s a s1 Hwf ltac:(lia) Hstep) as Hwf1.
    pose proof (pivot_step_dim _ _ _ Hstep) as Hdim.
    replace (a + S k)%nat with (S a + k)%nat by lia.
    apply (IH (S a) s1); [done|lia| |done|done].
    unfold pivot_step in Hstep. rewrite Hib in Hstep. injection Hstep as <-.
    apply index_best_range in Hib; [|lia].
    set (s0 := if decide (swap <> a) then interchange s a swap else s) in *.
    assert (Hwf0 : wf s0).
    { unfold s0. destruct (decide (swap <> a)); [|done].
      apply wf_interchange; [done|lia|lia]. }
    assert (Hdim0 : _dim s0 = _dim s) by (unfold s0; by destruct (decide (swap <> a))).
    apply factored_eliminate; [done|lia| |].
    + intros Hbelow.
      destruct (eliminate_divisors_head (_dim s0) a (_matrix s0) Hbelow) as [rest Hd].
      rewrite Hd in Hhere. by apply Forall_cons in Hhere as [Hnz _].
    + unfold s0. destruct (decide (swap <> a)); [|done].
      by apply factored_interchange.
Qed.

(** X9. In exact arithmetic, when [decompose] on a well-formed store
    reports no exception and none of the pivots that line 104 divided by
    was zero, the two matrices [display] shows multiply back to the
    original matrix with its rows permuted by the row order: for all
    [i, j < n], the sum over [t] of [L[i][t] * U[t][j]] equals cell
    [( _order[i], j)] of the grid [decompose] was given. *)
Theorem decompose_factors (tolerance : Q) st :
  wf st -> (decompose tolerance st).2 = None ->
  Forall (fun d => ~ d == 0)
    (divisors (seq 0 (_dim st)) (decompose_init tolerance st)) ->
  forall i j, (i < _dim st)%nat -> (j < _dim st)%nat ->
    LU_product (decompose tolerance st).1 i j ==
    cell (_matrix st) (original_row (decompose tolerance st).1 i) j.
Proof.
  intros Hwf Hlog Hnz i j Hi Hj. unfold decompose in *.
  set (st0 := decompose_init tolerance st) in *.
  change (_dim st0) with (_dim st) in *.
  pose proof (pivot_loop_steps (seq 0 (_dim st)) st0) as Hrun.
  set (final := (pivot_loop (seq 0 (_dim st)) st0).1) in *.
  destruct Hrun as [[Hall _]|(k' & p & _ & _ & _ & Hsome)]; [|congruence].
  assert (Hinv : factored (_matrix st) (0 + _dim st) final).
  { apply (factored_steps _ (_dim st) 0 st0); try done.
    - by apply wf_decompose_init.
    - by apply factored_init. }
  pose proof (steps_dim _ _ _ Hall) as Hdim. change (_dim st0) with (_dim st) in Hdim.
  rewrite (Hinv i j) by (rewrite Hdim; done).
  unfold LU_product. rewrite Hdim.
  replace (i `min` (0 + _dim st))%nat with i by lia.
  rewrite (Qsum_truncate (_dim st) (S i)); [|lia|].
  2:{ intros t Ht. unfold L_entry. rewrite !decide_False by lia.
      change (lit 0) with 0. ring. }
  cbn [Qsum]. unfold L_entry at 2. rewrite decide_False, decide_True by (done || lia).
  change (lit 1) with 1. unfold U_entry at 2. change (lit 0) with 0.
  rewrite (Qsum_ext i (fun t => L_entry final i t * U_entry final t j)
             (fun t => cell (_matrix final) i t * U_entry final t j)).
  2:{ intros t Ht. unfold L_entry. by rewrite decide_True by lia. }
  destruct (decide (j < i)%nat).
  - rewrite decide_False by lia. ring.
  - rewrite decide_True by lia. ring.
Qed.

End Factorisation.

(** ** Reading the matrix *)

Section Reading.
Context {R : Type} `{Scalar R}.
Implicit Types (m : list (list R)) (st : LUMatrix R) (input rest : list (option R)).

Lemma read_row_ok i c k (xs : list R) rest m :
  (i < length m)%nat -> (c + k <= length (row_at m i))%nat -> length xs = k ->
  read_row i (seq c k) (map Some xs ++ rest) m =
  Ok (<[i := take c (row_at m i) ++ xs ++ drop (c + k) (row_at m i)]> m, rest).
Proof.
  revert c xs m. induction k as [|k IH]; intros c xs m Hi Hck Hxs.
  - destruct xs; [|done]. cbn [seq read_row map app].
    rewrite Nat.add_0_r, take_drop. f_equal. f_equal. symmetry.
    apply list_insert_id. unfold row_at.
    by destruct (lookup_lt_is_Some_2 m i Hi) as [row ->].
  - destruct xs as [|x xs]; [done|]. injection Hxs as Hxs.
    cbn [seq read_row map app]. unfold set_cell.
    set (row := row_at m i) in *.
    rewrite (IH (S c) xs (<[i := <[c := x]> row]> m)).
    + rewrite row_at_insert by done. rewrite decide_True by done.
      rewrite list_insert_insert_eq.
      rewrite (take_S_r _ c x) by (apply list_lookup_insert_eq; lia).
      rewrite take_insert_ge by lia. rewrite drop_insert_lt by lia.
      replace (S c + k)%nat with (c + S k)%nat by lia.
      by rewrite <- app_assoc.
    + by rewrite length_insert.
    + rewrite row_at_insert by done. rewrite decide_True by done.
      rewrite length_insert. lia.
    + done.
Qed.

Lemma read_row_full n i (xs : list R) rest m :
  grid n m -> (i < n)%nat -> length xs = n ->
  read_row i (seq 0 n) (map Some xs ++ rest) m = Ok (<[i := xs]> m, rest).
Proof.
  intros Hg Hi Hxs. pose proof (grid_row_length n m i Hg Hi) as Hrow.
  pose proof Hg as [Hm _].
  rewrite (read_row_ok i 0 n xs); [|lia|lia|done].
  cbn [take]. rewrite drop_ge by lia. by rewrite app_nil_r.
Qed.

Lemma read_rows_ok n a k (rs : list (list R)) rest m :
  grid n m -> (a + k <= n)%nat -> length rs = k ->
  Forall (fun row => length row = n) rs ->
  read_rows (seq a k) n (map Some (concat rs) ++ rest) m =
  Ok (take a m ++ rs ++ drop (a + k) m, rest).
Proof.
  revert a rs m. induction k as [|k IH]; intros a rs m Hg Hak Hrs Hlen.
  - destruct rs; [|done]. cbn [seq read_rows concat map app].
    by rewrite Nat.add_0_r, take_drop.
  - destruct rs as [|r rs]; [done|]. injection Hrs as Hrs.
    apply Forall_cons in Hlen as [Hr Hlen].
    cbn [seq read_rows concat]. rewrite map_app, <- app_assoc.
    rewrite (read_row_full n) by (done || lia).
    pose proof Hg as [Hm _].
    rewrite (IH (S a) rs (<[a := r]> m)); [|by apply grid_insert_row|lia|done|done].
    rewrite (take_S_r _ a r) by (apply list_lookup_insert_eq; lia).
    rewrite take_insert_ge by lia. rewrite drop_insert_lt by lia.
    replace (S a + k)%nat with (a + S k)%nat by lia.
    by rewrite <- app_assoc.
Qed.

Lemma read_row_inv i cols input m m' rest :
  read_row i cols input m = Ok (m', rest) ->
  exists xs : list R, length xs = length cols /\ input = map Some xs ++ rest.
Proof.
  revert input m. induction cols as [|j cols IH]; intros input m; cbn [read_row].
  - intros [= <- <-]. by exists [].
  - destruct input as [|[x|] input]; [done| |done].
    intros (xs & Hxs & ->)%IH. exists (x :: xs). split; [simpl; lia|done].
Qed.

Lemma read_rows_inv n rows input m m' rest :
  read_rows rows n input m = Ok (m', rest) ->
  exists rs : list (list R), length rs = length rows /\
    Forall (fun row => length row = n) rs /\ input = map Some (concat rs) ++ rest.
Proof.
  revert input m. induction rows as [|i rows IH]; intros input m; cbn [read_rows].
  - intros [= <- <-]. exists []. by repeat split.
  - destruct (read_row i (seq 0 n) input m) as [[m1 input1]|] eqn:Hrow; [|done].
    apply read_row_inv in Hrow as (xs & Hxs & ->).
    intros (rs & Hrs & Hlen & ->)%IH. exists (xs :: rs).
    split; [simpl; lia|]. split.
    + apply Forall_cons. split; [by rewrite Hxs, length_seq|done].
    + cbn [concat]. by rewrite map_app, <- app_assoc.
Qed.

Lemma read_row_throws i cols input m e :
  read_row i cols input m = Throw e -> e = BadInput.
Proof.
  revert input m. induction cols as [|j cols IH]; intros input m; cbn [read_row]; [done|].
  destruct input as [|[x|] input]; [by intros [= <-]|apply IH|by intros [= <-]].
Qed.

Lemma read_rows_throws n rows input m e :
  read_rows rows n input m = Throw e -> e = BadInput.
Proof.
  revert input m. induction rows as [|i rows IH]; intros input m; cbn [read_rows]; [done|].
  destruct (read_row i (seq 0 n) input m) as [[m1 input1]|e'] eqn:Hrow.
  - apply IH.
  - intros [= <-]. by apply read_row_throws in Hrow.
Qed.

Lemma read_matrix_rows st (rows : list (list R)) rest :
  wf st -> grid (_dim st) rows ->
  read_matrix (map Some (concat rows) ++ rest) st = Ok (with_rows rows st, rest).
Proof.
  intros [Hg _] [Hlen Hrows]. unfold read_matrix.
  pose proof Hg as [Hm _].
  rewrite (read_rows_ok (_dim st) 0 (_dim st) rows); [|done|lia|done|done].
  cbn [take app]. rewrite drop_ge by lia. by rewrite app_nil_r.
Qed.

(** X10. [operator>>] reads the grid row by row.  On a well-formed store
    of dimension [n], when the input starts with the [n * n] numbers of
    the rows [rows] one after the other, it returns with the store holding
    exactly [rows] (dimension, row order, counter and tolerance are not
    touched) and has consumed these numbers and no more.  In every other
    case, that is when one of the first [n * n] extractions fails or the
    input ends before them, it throws the exception 5. *)
Theorem read_matrix_round_trip st input :
  wf st ->
  (forall (rows : list (list R)) rest, grid (_dim st) rows ->
     read_matrix (map Some (concat rows) ++ rest) st = Ok (with_rows rows st, rest)) /\
  match read_matrix input st with
  | Ok (st', rest) =>
      exists rows : list (list R), grid (_dim st) rows /\
        input = map Some (concat rows) ++ rest /\ st' = with_rows rows st
  | Throw e =>
      e = BadInput /\
      ~ exists (rows : list (list R)) rest, grid (_dim st) rows /\
          input = map Some (concat rows) ++ rest
  end.
Proof.
  intros Hwf. split; [intros rows rest; by apply read_matrix_rows|].
  destruct (read_matrix input st) as [[st' rest]|e] eqn:Hread.
  - assert (Hinv : exists rs : list (list R), grid (_dim st) rs /\
                     input = map Some (concat rs) ++ rest).
    { unfold read_matrix in Hread.
      destruct (read_rows _ _ input _) as [[m' rest']|] eqn:Hrows; [|done].
      injection Hread as _ <-.
      apply read_rows_inv in Hrows as (rs & Hrs & Hlen & ->).
      rewrite length_seq in Hrs. by exists rs. }
    destruct Hinv as (rs & Hgrid & ->). exists rs.
    split; [done|]. split; [done|].
    rewrite (read_matrix_rows st rs rest Hwf Hgrid) in Hread. by injection Hread as <-.
  - split.
    + unfold read_matrix in Hread.
      destruct (read_rows _ _ input _) as [[m' rest']|e'] eqn:Hrows; [done|].
      injection Hread as <-. by apply read_rows_throws in Hrows.
    + intros (rows & rest & Hgrid & ->).
      by rewrite (read_matrix_rows st rows rest Hwf Hgrid) in Hread.
Qed.

End Reading.

(** ** What is displayed, and the program as a whole *)

Section Display.
Context {R : Type} `{Scalar R}.
Implicit Types (m : list (list R)) (st : LUMatrix R).

Lemma display_L_line_lookup st i j :
  (i < _dim st)%nat -> (j < _dim st)%nat ->
  shown_value <$> display_L_line st i !! j = Some (Some (L_entry st i j)).
Proof.
  intros Hi Hj. unfold display_L_line, L_entry.
  destruct (decide (j < i)%nat) as [Hlt|Hge].
  - rewrite lookup_app_l by (rewrite length_map, length_seq; lia).
    rewrite list_lookup_fmap.
    by rewrite (proj2 (lookup_seq 0 i j j) (conj eq_refl Hlt)).
  - rewrite lookup_app_r by (rewrite length_map, length_seq; lia).
    rewrite length_map, length_seq.
    destruct (decide (j = i)) as [->|Hne].
    + by rewrite Nat.sub_diag.
    + rewrite lookup_app_r by (simpl; lia). cbn [length].
      rewrite list_lookup_fmap.
      rewrite (proj2 (lookup_seq (i + 1) (_dim st - (i + 1)) (j - i - 1) j)); [done|].
      split; lia.
Qed.

Lemma display_U_line_lookup st i j :
  (i < _dim st)%nat -> (j < _dim st)%nat ->
  shown_value <$> display_U_line st i !! j = Some (Some (U_entry st i j)).
Proof.
  intros Hi Hj. unfold display_U_line, U_entry.
  destruct (decide (j < i)%nat) as [Hlt|Hge].
  - rewrite lookup_app_l by (rewrite length_map, length_seq; lia).
    rewrite list_lookup_fmap.
    by rewrite (proj2 (lookup_seq 0 i j j) (conj eq_refl Hlt)).
  - rewrite lookup_app_r by (rewrite length_map, length_seq; lia).
    rewrite length_map, length_seq, list_lookup_fmap.
    rewrite (proj2 (lookup_seq i (_dim st - i) (j - i) j)); [done|].
    split; lia.
Qed.

(** X11. [display] prints, after the heading of each, two blocks of [n]
    lines of [n] items: line [i], item [j] of the first block stands for
    the entry [(i, j)] of [L] (the stored cell below the diagonal, the
    character 1 on it, the character 0 above), and that of the second
    block for the entry [(i, j)] of [U] (the character 0 below the
    diagonal, the stored cell on and above it). *)
Theorem display_shows_factors st (i : nat) :
  (i < _dim st)%nat ->
  exists line_L line_U,
    display st !! (1 + i)%nat = Some line_L /\
    display st !! (_dim st + 2 + i)%nat = Some line_U /\
    length line_L = _dim st /\ length line_U = _dim st /\
    forall j, (j < _dim st)%nat ->
      shown_value <$> line_L !! j = Some (Some (L_entry st i j)) /\
      shown_value <$> line_U !! j = Some (Some (U_entry st i j)).
Proof.
  intros Hi. exists (display_L_line st i), (display_U_line st i).
  assert (Hseq : seq 0 (_dim st) !! i = Some i) by (by apply lookup_seq).
  split; [|split; [|split; [|split]]].
  - unfold display. rewrite lookup_app_r by (simpl; lia). cbn [length].
    replace (1 + i - 1)%nat with i by lia.
    rewrite lookup_app_l by (rewrite length_map, length_seq; lia).
    by rewrite list_lookup_fmap, Hseq.
  - unfold display. rewrite lookup_app_r by (simpl; lia). cbn [length].
    rewrite lookup_app_r by (rewrite length_map, length_seq; lia).
    rewrite length_map, length_seq.
    rewrite lookup_app_r by (simpl; lia). cbn [length].
    replace (_dim st + 2 + i - 1 - _dim st - 1)%nat with i by lia.
    rewrite lookup_app_l by (rewrite length_map, length_seq; lia).
    by rewrite list_lookup_fmap, Hseq.
  - unfold display_L_line. rewrite !length_app, !length_map, !length_seq. simpl. lia.
  - unfold display_U_line. rewrite !length_app, !length_map, !length_seq. lia.
  - intros j Hj. split;
      [by apply display_L_line_lookup|by apply display_U_line_lookup].
Qed.

End Display.

Section Program.

Lemma LUMatrix_new_wf {R} `{Scalar R} (fill : R) (n : Z) : wf (LUMatrix_new fill n).1.
Proof.
  unfold LUMatrix_new. destruct (n <? 1); cbn [fst].
  - repeat split; constructor.
  - split; [split|]; cbn [_matrix _dim _order].
    + apply length_replicate.
    + apply Forall_forall. intros row ->%elem_of_replicate_inv. apply length_replicate.
    + apply length_replicate.
Qed.

Lemma LUMatrix_new_dim {R} `{Scalar R} (fill : R) (n : Z) :
  1 <= n -> _dim (LUMatrix_new fill n).1 = Z.to_nat n.
Proof. intros Hn. unfold LUMatrix_new. by rewrite (proj2 (Z.ltb_ge n 1) Hn). Qed.

Lemma zero_row_decompose {R} `{Scalar R} `{!ScalarLaws R} (tolerance : R) st z :
  (z < _dim st)%nat ->
  (forall j, (j < _dim st)%nat -> cell (_matrix st) z j = lit 0) ->
  flt (lit 0) (effective_tolerance tolerance) = true ->
  decompose tolerance st = (decompose_init tolerance st, Some LinearlyDependentRow).
Proof.
  intros Hz Hzero Hpos. unfold decompose.
  change (_dim (decompose_init tolerance st)) with (_dim st).
  rewrite (seq_split_at (_dim st) 0) by lia.
  apply (pivot_loop_aborts [] 0 _ _ (decompose_init tolerance st)); [done|].
  unfold pivot_step, index_best.
  rewrite (index_best_loop_dependent _ 0 _ 0%nat (lit 0) z); [done| |].
  - apply elem_of_seq. simpl. lia.
  - simpl. by rewrite (zero_row_max _ _ z 0) by (done || lia).
Qed.

Lemma await_size_out fuel n : n < 3 \/ 1000000 < n -> await_size fuel n = None.
Proof.
  intros Hn. induction fuel as [|fuel IH]; [done|]. cbn [await_size].
  assert (((n <? 3) || (n >? 1000000)) = true) as -> by lia. done.
Qed.

Lemma await_size_in fuel n : 3 <= n <= 1000000 -> await_size (S fuel) n = Some n.
Proof.
  intros Hn. cbn [await_size].
  assert (((n <? 3) || (n >? 1000000)) = false) as -> by lia. done.
Qed.

(** X12. [main] asks for the size once.  If the number read is below 3
    or above 1000000 (0 when the extraction fails), the empty loop of
    line 276 never ends: no matrix is ever constructed, however long the
    program runs.  Otherwise [main] constructs the store, and either the
    input supplies the [n * n] numbers of the grid, which [main] then
    decomposes with the tolerance [1e-6] and displays, whether or not
    [decompose] reported an exception; or it does not, and [main] reports
    ["bad input"] and displays nothing. *)
Theorem main_outcomes (fuel : nat) (n : Z) (input : list (option float)) :
  (n < 3 \/ 1000000 < n -> main fuel n input = None) /\
  (3 <= n <= 1000000 ->
     (forall rows rest, grid (Z.to_nat n) rows ->
        input = map Some (concat rows) ++ rest ->
        let out := decompose main_tolerance (with_rows rows (LUMatrix_new 0%float n).1) in
        main (S fuel) n input = Some (Displayed (display out.1) out.2)) /\
     ((~ exists rows rest, grid (Z.to_nat n) rows /\
           input = map Some (concat rows) ++ rest) ->
      main (S fuel) n input = Some (Reported "bad input"))).
Proof.
  split.
  - intros Hn. unfold main. by rewrite await_size_out.
  - intros Hn. unfold main. rewrite await_size_in by done.
    pose proof (LUMatrix_new_wf 0%float n) as Hwf.
    pose proof (LUMatrix_new_dim 0%float n ltac:(lia)) as Hdim.
    split.
    + intros rows rest Hgrid ->. rewrite <- Hdim in Hgrid.
      by rewrite (read_matrix_rows _ rows rest Hwf Hgrid).
    + intros Hno.
      destruct (read_matrix input (LUMatrix_new 0%float n).1) as [[st' rest]|e] eqn:Hread.
      * exfalso. apply Hno. unfold read_matrix in Hread.
        destruct (read_rows _ _ input _) as [[m' rest']|] eqn:Hrows; [|done].
        injection Hread as _ <-.
        apply read_rows_inv in Hrows as (rs & Hrs & Hlen & ->).
        rewrite length_seq, Hdim in Hrs. rewrite Hdim in Hlen.
        exists rs, rest'. split; [by split|done].
      * unfold read_matrix in Hread.
        destruct (read_rows _ _ input _) as [[m' rest']|e'] eqn:Hrows; [done|].
        injection Hread as <-. by apply read_rows_throws in Hrows as ->.
Qed.

(** X13. [main] does not hold back the display after a failed
    decomposition.  When the grid read has an all-zero row, [decompose]
    reports the exception 4 at the first pivot and [main] goes on to
    display the store as it was read: [U] is shown as the upper triangle
    of the input itself, [L] as its strictly lower triangle under a unit
    diagonal, the swap vector as [1 .. n] and the swap count as 0. *)
Theorem main_displays_failed_decomposition
    (fuel : nat) (n : Z) (rows : list (list float)) rest (z : nat) :
  3 <= n <= 1000000 -> grid (Z.to_nat n) rows -> (z < Z.to_nat n)%nat ->
  (forall j, (j < Z.to_nat n)%nat -> cell rows z j = 0%float) ->
  let st := decompose_init main_tolerance (with_rows rows (LUMatrix_new 0%float n).1) in
  main (S fuel) n (map Some (concat rows) ++ rest) =
    Some (Displayed (display st) (Some LinearlyDependentRow)) /\
  _matrix st = rows /\ _swaps st = 0 /\ _order st = seq 0 (Z.to_nat n).
Proof.
  intros Hn Hgrid Hz Hzero st.
  pose proof (LUMatrix_new_wf 0%float n) as Hwf.
  pose proof (LUMatrix_new_dim 0%float n ltac:(lia)) as Hdim.
  split; [|split; [done|split]].
  - unfold main. rewrite await_size_in by done.
    rewrite <- Hdim in Hgrid.
    rewrite (read_matrix_rows _ rows rest Hwf Hgrid).
    rewrite (zero_row_decompose main_tolerance _ z); [done| | |done].
    + cbn [with_rows _dim]. by rewrite Hdim.
    + cbn [with_rows _dim _matrix]. rewrite Hdim. exact Hzero.
  - unfold st, LUMatrix_new. by rewrite (proj2 (Z.ltb_ge n 1)) by lia.
  - unfold st. cbn [decompose_init with_rows _order _dim].
    rewrite init_order by apply Hwf. by rewrite Hdim.
Qed.

End Program.

(** ** What the constructor leaves indeterminate is never read *)

Section Indeterminate.
Context {R : Type} `{Scalar R}.
Implicit Types (st : LUMatrix R).

Lemma decompose_init_agree tolerance st1 st2 :
  wf st1 -> wf st2 -> _dim st1 = _dim st2 -> _swaps st1 = _swaps st2 ->
  _matrix st1 = _matrix st2 ->
  decompose_init tolerance st1 = decompose_init tolerance st2.
Proof.
  intros [_ Ho1] [_ Ho2] Hdim Hswaps Hm. unfold decompose_init.
  rewrite (init_order _ _ Ho1), (init_order _ _ Ho2). by rewrite Hdim, Hswaps, Hm.
Qed.

(** X14. The constructor leaves the cells, the row order and the
    tolerance uninitialised, and nothing ever reads them: on two
    well-formed stores of the same dimension and swap count, whatever
    else they hold, [operator>>] on the same input either throws the same
    exception on both or leaves the same grid and the same rest of the
    input, after which [decompose] with any tolerance leaves the same
    store and reports the same. *)
Theorem indeterminate_contents_never_read st1 st2 (input : list (option R)) :
  wf st1 -> wf st2 -> _dim st1 = _dim st2 -> _swaps st1 = _swaps st2 ->
  match read_matrix input st1, read_matrix input st2 with
  | Ok (a, rest1), Ok (b, rest2) =>
      rest1 = rest2 /\ _matrix a = _matrix b /\
      forall t, decompose t a = decompose t b
  | Throw e1, Throw e2 => e1 = e2
  | _, _ => False
  end.
Proof.
  intros Hwf1 Hwf2 Hdim Hswaps.
  assert (Hinv : forall st input' st' rest,
            read_matrix input' st = Ok (st', rest) ->
            exists rs : list (list R), grid (_dim st) rs /\
              input' = map Some (concat rs) ++ rest).
  { intros st input' st' rest Hread. unfold read_matrix in Hread.
    destruct (read_rows _ _ input' _) as [[m' rest']|] eqn:Hrows; [|done].
    injection Hread as _ <-.
    apply read_rows_inv in Hrows as (rs & Hrs & Hlen & ->).
    rewrite length_seq in Hrs. by exists rs. }
  assert (Hthrow : forall st e, read_matrix input st = Throw e -> e = BadInput).
  { intros st e Hread. unfold read_matrix in Hread.
    destruct (read_rows _ _ input _) as [[m' rest']|e'] eqn:Hrows; [done|].
    injection Hread as <-. by apply read_rows_throws in Hrows. }
  destruct (read_matrix input st1) as [[a rest1]|e1] eqn:Hread1.
  - destruct (Hinv _ _ _ _ Hread1) as (rs & Hgrid & ->).
    rewrite (read_matrix_rows st1 rs rest1 Hwf1 Hgrid) in Hread1.
    injection Hread1 as <-.
    assert (Hwfa : wf (with_rows rs st1)) by (split; [exact Hgrid|apply Hwf1]).
    rewrite Hdim in Hgrid.
    assert (Hwfb : wf (with_rows rs st2)) by (split; [exact Hgrid|apply Hwf2]).
    rewrite (read_matrix_rows st2 rs rest1 Hwf2 Hgrid).
    split; [done|]. split; [done|]. intros t. unfold decompose.
    by rewrite (decompose_init_agree t (with_rows rs st1) (with_rows rs st2)).
  - destruct (read_matrix input st2) as [[b rest2]|e2] eqn:Hread2.
    + destruct (Hinv _ _ _ _ Hread2) as (rs & Hgrid & ->).
      rewrite <- Hdim in Hgrid.
      by rewrite (read_matrix_rows st1 rs rest2 Hwf1 Hgrid) in Hread1.
    + by rewrite (Hthrow _ _ Hread1), (Hthrow _ _ Hread2).
Qed.

End Indeterminate.

(** ** The further properties at work *)

Section FurtherScenarios.


Lemma interchange_first_row_final :
  let st := store_of (R := float) interchange_rows in
  (1 <= _dim st)%nat /\
  exists s, decompose_steps (-1)%float st 1 = Ok s /\
    row_at (_matrix s) 0 = [7; 8; 10]%float /\
    row_at (_matrix (decompose (-1)%float st).1) 0 = row_at (_matrix s) 0.
Proof.
  intros st.
  assert (Hk : (1 <= _dim st)%nat) by (vm_compute; lia).
  split; [exact Hk|]. eexists. split; [vm_compute; reflexivity|].
  split; [reflexivity|].
  apply (completed_rows_are_final (-1)%float st 1 _ Hk); [vm_compute; reflexivity|lia].
Defined.

Lemma scenario_rswap :
  let m := _matrix (store_of (R := float) scenario_rows) in
  (0 < length m)%nat /\ (2 < length m)%nat /\
  row_at (rswap m 0 2) 0 = row_at m 2 /\
  rswap (rswap m 0 2) 0 2 = m.
Proof.
  intros m.
  assert (H0 : (0 < length m)%nat) by (vm_compute; lia).
  assert (H2 : (2 < length m)%nat) by (vm_compute; lia).
  destruct (rswap_exchanges_two_rows m 0 2 H0 H2) as (Hrow & _ & _ & _ & Hinv).
  repeat split; done.
Defined.

Lemma scenario_row_access :
  let st := store_of (R := float) scenario_rows in
  wf st /\
  (exists buffer, row_access st 1 = (Some buffer, None) /\ length buffer = _dim st) /\
  row_access st 3 = (None, Some (RowIndexOutOfBounds 3)).
Proof.
  intros st.
  assert (Hwf : wf st) by (apply store_of_wf; simpl; lia).
  split; [exact Hwf|]. split.
  - destruct (row_access_bounds st 1 Hwf) as [Hin _].
    destruct Hin as (buffer & Hb & Hlen & _); [vm_compute; split; [discriminate|reflexivity]|].
    by exists buffer.
  - destruct (row_access_bounds st 3 Hwf) as [_ Hout].
    apply Hout. intros [_ Hlt]. vm_compute in Hlt. discriminate.
Defined.

Lemma scenario_eliminate_cell :
  let m := _matrix (store_of (R := Q) scenario_rows) in
  grid 3 m /\
  (cell (eliminate 3 0 m) 1 1 == 1)%Q /\ (cell (eliminate 3 0 m) 1 0 == 2)%Q.
Proof.
  intros m.
  assert (Hg : grid 3 m) by (apply (store_of_wf (R := Q) scenario_rows); simpl; lia).
  split; [exact Hg|]. split.
  - rewrite (eliminate_cells 3 0 m 1 1 Hg) by lia. by vm_compute.
  - rewrite (eliminate_cells 3 0 m 1 0 Hg) by lia. by vm_compute.
Defined.

Lemma scenario_factors :
  let st := store_of (R := Q) scenario_rows in
  let out := decompose (1 # 1000000)%Q st in
  wf st /\ out.2 = None /\
  forall i j, (i < 3)%nat -> (j < 3)%nat ->
    (LU_product out.1 i j == cell (_matrix st) (original_row out.1 i) j)%Q.
Proof.
  intros st out.
  assert (Hwf : wf st) by (apply store_of_wf; simpl; lia).
  assert (Hlog : out.2 = None) by (vm_compute; reflexivity).
  assert (Hnz : Forall (fun d => ~ (d == 0)%Q)
            (divisors (seq 0 (_dim st)) (decompose_init (1 # 1000000)%Q st))).
  { vm_compute. repeat constructor; discriminate. }
  split; [exact Hwf|]. split; [exact Hlog|].
  exact (decompose_factors (1 # 1000000)%Q st Hwf Hlog Hnz).
Defined.

Lemma scenario_read :
  let st := (LUMatrix_new 0%float 3).1 in
  let rows := [[2; 1; 1]; [4; 3; 3]; [8; 7; 9]]%float in
  wf st /\
  read_matrix (map Some (concat rows) ++ [None]) st = Ok (with_rows rows st, [None]).
Proof.
  intros st rows.
  assert (Hwf : wf st) by apply LUMatrix_new_wf.
  split; [exact Hwf|].
  destruct (read_matrix_round_trip st [] Hwf) as [Hok _].
  apply Hok. split; [reflexivity|]. repeat constructor.
Defined.

Lemma scenario_display :
  let st := (decompose main_tolerance (store_of scenario_rows)).1 in
  (2 < _dim st)%nat /\
  exists line_L line_U,
    display st !! 3%nat = Some line_L /\ display st !! 7%nat = Some line_U /\
    shown_value <$> line_L !! 1%nat = Some (Some 3%float) /\
    shown_value <$> line_U !! 2%nat = Some (Some 2%float).
Proof.
  intros st.
  assert (Hi : (2 < _dim st)%nat) by (vm_compute; lia).
  split; [exact Hi|].
  destruct (display_shows_factors st 2 Hi) as (line_L & line_U & HL & HU & _ & _ & Hitems).
  exists line_L, line_U.
  destruct (Hitems 1%nat) as [H1 _]; [vm_compute; lia|].
  destruct (Hitems 2%nat) as [_ H2]; [vm_compute; lia|].
  repeat split; done.
Defined.

Lemma zero_row_still_displayed :
  3 <= 3 <= 1000000 /\ grid (Z.to_nat 3) zero_middle_rows /\
  main 1 3 (map Some (concat zero_middle_rows)) =
    Some (Displayed
            (display (decompose_init main_tolerance
                        (with_rows zero_middle_rows (LUMatrix_new 0%float 3).1)))
            (Some LinearlyDependentRow)).
Proof.
  assert (Hn : 3 <= 3 <= 1000000) by lia.
  assert (Hg : grid (Z.to_nat 3) zero_middle_rows).
  { split; [reflexivity|]. repeat constructor. }
  assert (Hz : (1 < Z.to_nat 3)%nat) by (vm_compute; lia).
  assert (Hzero : forall j, (j < Z.to_nat 3)%nat -> cell zero_middle_rows 1 j = 0%float).
  { intros [|[|[|j]]] Hj; [reflexivity..|]. vm_compute in Hj. lia. }
  split; [exact Hn|]. split; [exact Hg|].
  destruct (main_displays_failed_decomposition 0 3 zero_middle_rows [] 1 Hn Hg Hz Hzero)
    as [Hmain _].
  rewrite app_nil_r in Hmain. exact Hmain.
Defined.

Lemma fill_is_never_read :
  let st1 := (LUMatrix_new 0%float 2).1 in
  let st2 := (LUMatrix_new 7%float 2).1 in
  let input := map Some [0; 1; 0; 1]%float in
  wf st1 /\ wf st2 /\
  match read_matrix input st1, read_matrix input st2 with
  | Ok (a, _), Ok (b, _) => decompose (-1)%float a = decompose (-1)%float b
  | _, _ => False
  end.
Proof.
  intros st1 st2 input.
  assert (Hwf1 : wf st1) by apply LUMatrix_new_wf.
  assert (Hwf2 : wf st2) by apply LUMatrix_new_wf.
  split; [exact Hwf1|]. split; [exact Hwf2|].
  pose proof (indeterminate_contents_never_read st1 st2 input Hwf1 Hwf2 eq_refl eq_refl)
    as Hsame.
  destruct (read_matrix input st1) as [[a rest1]|] eqn:Hread1,
           (read_matrix input st2) as [[b rest2]|] eqn:Hread2; try done.
  destruct Hsame as (_ & _ & Hdec). apply Hdec.
Defined.

(** The constructor for a 3-by-3 matrix with every allocation met, and with the
    third row buffer refused. *)
Lemma constructor_outcome_3 :
  is_int 3 /\
  (exists st, LUMatrix_construct (fun _ => true) 0%float 3 = Constructed st None /\
     _dim st = 3%nat) /\
  LUMatrix_construct (fun k => negb (k =? 3)%nat) 0%float 3 = BadAlloc.
Proof.
  assert (Hint : is_int 3) by (unfold is_int; lia).
  split; [exact Hint|]. split.
  - pose proof (constructor_outcome (fun _ => true) 0%float 3 Hint) as Hout.
    destruct (LUMatrix_construct (fun _ => true) 0%float 3) as [st report|] eqn:Hc;
      [|by vm_compute in Hc].
    destruct Hout as (_ & _ & _ & [(Hlt & _)|(_ & -> & Hdim & _)]); [lia|].
    exists st. split; [done|]. lia.
  - by vm_compute.
Defined.

End FurtherScenarios.
